(** * Relay type relations and operator strategies

    A shallow embedding of
      - [src/relay/op/type_relations.cc]: [ToTensorType], [IdentityRel],
        [EqualCheck], [EqualConstInt], [ConcreteBroadcast], [BroadcastRel],
        [BroadcastCompRel];
      - [src/relay/ir/op_attr_types.cc]: [OpSpecialization::AddImplement],
        [OpStrategy::AddImplement].

    Effects are explicit: a relation runs in a small monad that threads the
    reporter's assignments and the warning log, and that can abort with a
    fatal error (a failed [CHECK_EQ], a raised [RELAY_ERROR]).  Operator
    specializations are heap objects shared by reference. *)

From Stdlib Require Import ZArith List String Lia Bool.
From stdpp Require Import base option list gmap strings.

Set Default Proof Using "Type".

(** ** Data types, element types and index expressions *)

(** The type code of an element type. *)
Inductive TypeCode := kDLInt | kDLUInt | kDLFloat.

(** Modelled from the spec: the element type tag of a tensor ([DataType],
    declared elsewhere in the repository): a type code, a bit width and a
    lane count. *)
Record DataType := mkDataType { code : TypeCode; bits : Z; lanes : Z }.

#[global] Instance TypeCode_eq_dec : EqDecision TypeCode.
Proof. solve_decision. Defined.

#[global] Instance DataType_eq_dec : EqDecision DataType.
Proof. solve_decision. Defined.

(** [::tvm::Bool()] is [UInt(1)]. *)
Definition Bool_ : DataType := mkDataType kDLUInt 1 1.
Definition Int_ (b : Z) : DataType := mkDataType kDLInt b 1.
Definition Float_ (b : Z) : DataType := mkDataType kDLFloat b 1.

(** Modelled from the spec: index expressions ([IndexExpr], declared
    elsewhere in the repository).  A dimension is a concrete integer, a
    symbolic expression, or the [Any()] singleton wildcard; the symbolic
    expressions kept here are variables, sums and differences. *)
Inductive IndexExpr :=
  | IntImm (value : Z)
  | Var (name_hint : string)
  | Any
  | Add (a b : IndexExpr)
  | Sub (a b : IndexExpr).

#[global] Instance IndexExpr_eq_dec : EqDecision IndexExpr.
Proof. solve_decision. Defined.

(** Modelled from the spec: [as_const_int], the extractor of an optional
    64-bit integer: the value of an integer literal, nothing otherwise. *)
Definition as_const_int (e : IndexExpr) : option Z :=
  match e with
  | IntImm v => Some v
  | _ => None
  end.

(** Two's complement wrap-around of a 64-bit signed integer. *)
Definition wrap64 (z : Z) : Z :=
  ((z + 2 ^ 63) mod 2 ^ 64 - 2 ^ 63)%Z.

(** Modelled from the spec: the difference operator of index expressions,
    the exact structural difference that [EqualCheck] tries first: two
    literals fold to the literal of their 64-bit difference, subtracting the
    literal 0 gives the left operand back, anything else builds a [Sub]
    node. *)
Definition expr_sub (a b : IndexExpr) : IndexExpr :=
  match a, b with
  | IntImm x, IntImm y => IntImm (wrap64 (x - y))
  | _, IntImm 0 => a
  | _, _ => Sub a b
  end.

(** Modelled from the spec: the [Any()] singleton wildcard dimension.
    [e.same_as(Any())] compares references, and [Any()] being a singleton,
    holds exactly when [e] is the wildcard. *)
Definition same_as_Any (e : IndexExpr) : bool :=
  match e with
  | Any => true
  | _ => false
  end.

(** The value of an index expression under an assignment of integers to its
    atoms; the atom [None] is the wildcard singleton, [Some x] the variable
    [x]. *)
Definition Env := option string -> Z.

Fixpoint eval (env : Env) (e : IndexExpr) : Z :=
  match e with
  | IntImm v => v
  | Var x => env (Some x)
  | Any => env None
  | Add a b => (eval env a + eval env b)%Z
  | Sub a b => (eval env a - eval env b)%Z
  end.

(** ** Types *)

Record TensorTypeNode := mkTensorType { shape : list IndexExpr; dtype : DataType }.

(** The tagged union of types: tensor types, and the variants a relation only
    passes along (placeholders still to be resolved, tuples). *)
#[warnings="-register-all"] Inductive Ty :=
  | TensorType (t : TensorTypeNode)
  | IncompleteType (id : nat)
  | TupleType (fields : list Ty).

(** [ToTensorType]: the tensor type behind a type, the null reference
    ([None]) for every other variant. *)
Definition ToTensorType (t : Ty) : option TensorTypeNode :=
  match t with
  | TensorType tt_node => Some tt_node
  | _ => None
  end.

(** ** The monad of a type relation *)

(** What is streamed into a log line or an error message. *)
Inductive Fragment :=
  | Text (s : string)
  | ShowExpr (e : IndexExpr)
  | ShowType (t : TensorTypeNode).

Definition Message := list Fragment.

(** The fatal channel, which aborts the call: a failed [CHECK_EQ] (named by
    the condition it checks), a raised [RELAY_ERROR] with its message, and an
    array read outside its bounds. *)
Inductive Fatal :=
  | CheckFailed (condition : string)
  | RelayError (msg : Message)
  | IndexOutOfRange.

(** Modelled from the spec: the reporter is a sink that records, for each
    [reporter->Assign(dst, src)], that the type [dst] must equal [src].
    What a call leaves behind is the list of these assignments, in call
    order, and the warnings logged with [LOG(WARNING)]. *)
Record World := mkWorld {
  assigned : list (Ty * Ty);
  warnings : list Message
}.

Inductive Outcome (A : Type) :=
  | Ok (a : A)
  | Raise (e : Fatal).
Arguments Ok {A} a.
Arguments Raise {A} e.

Definition M (A : Type) : Type := World -> Outcome A * World.

Definition ret {A} (a : A) : M A := fun w => (Ok a, w).

Definition bind {A B} (m : M A) (k : A -> M B) : M B :=
  fun w =>
    match m w with
    | (Ok a, w') => k a w'
    | (Raise e, w') => (Raise e, w')
    end.

Definition raise {A} (e : Fatal) : M A := fun w => (Raise e, w).

Declare Scope rel_scope.
Delimit Scope rel_scope with rel.
Notation "x <- c ;; k" := (bind c (fun x => k))
  (at level 100, c at next level, right associativity) : rel_scope.
Notation "c ;;; k" := (bind c (fun _ => k))
  (at level 100, right associativity) : rel_scope.
Open Scope rel_scope.

(** [reporter->Assign(dst, src)]. *)
Definition Assign (dst src : Ty) : M unit :=
  fun w => (Ok tt, mkWorld (assigned w ++ [(dst, src)]) (warnings w)).

(** [LOG(WARNING) << ...]: a line in the log; the call goes on. *)
Definition LOG_WARNING (msg : Message) : M unit :=
  fun w => (Ok tt, mkWorld (assigned w) (warnings w ++ [msg])).

(** [CHECK_EQ(a, b)], with the text of the condition: fatal when the two
    differ. *)
Definition CHECK_EQ {A} `{EqDecision A} (a b : A) (condition : string) : M unit :=
  if decide (a = b) then ret tt else raise (CheckFailed condition).

(** [arr[i]]: the source reads without a bounds check; a read outside the
    array is kept apart as its own fault, which the loops below never
    reach ([ConcreteBroadcast_walk], [IdentityRel_loop]). *)
Definition at_index {A} (arr : list A) (i : nat) : M A :=
  match arr !! i with
  | Some x => ret x
  | None => raise IndexOutOfRange
  end.

(** A counting loop [for (; i <= bound; ++i) body] makes [bound + 1 - i]
    rounds (none when [i] is already past the bound), the loop variable going
    up by one each round; the loop hands back the final value of the
    variable with the loop state. *)
Fixpoint for_count {S} (count : nat) (i : nat) (body : nat -> S -> M S) (s : S)
  : M (nat * S) :=
  match count with
  | O => ret (i, s)
  | Datatypes.S count' =>
      s' <- body i s ;; for_count count' (Datatypes.S i) body s'
  end.

Definition for_le {S} (i bound : nat) (body : nat -> S -> M S) (s : S)
  : M (nat * S) :=
  for_count (bound + 1 - i) i body s.

(** [for (; i < bound; ++i) body] makes [bound - i] rounds. *)
Definition for_lt {S} (i bound : nat) (body : nat -> S -> M S) (s : S)
  : M (nat * S) :=
  for_count (bound - i) i body s.

(** ** The type relations of [type_relations.cc] *)

Section Relations.

(** The symbolic simplifier [tvm::ir::CanonicalSimplify] is consumed as an
    opaque procedure, and so are the attributes of an operator. *)
Variable CanonicalSimplify : IndexExpr -> IndexExpr.
Context {Attrs : Type}.

Definition IdentityRel (types : list Ty) (num_inputs : Z) (attrs : Attrs)
  : M bool :=
  for_lt 1 (length types)
    (fun i (_ : unit) =>
       dst <- at_index types i ;;
       src <- at_index types 0 ;;
       Assign dst src)
    tt ;;;
  ret true.

Definition EqualCheck (lhs rhs : IndexExpr) : bool :=
  let diff := expr_sub lhs rhs in
  match as_const_int diff with
  | Some pdiff => (pdiff =? 0)%Z
  | None =>
      (* symbolic *)
      let diff := CanonicalSimplify diff in
      match as_const_int diff with
      | Some pdiff => (pdiff =? 0)%Z
      | None => false
      end
  end.

Definition EqualConstInt (lhs : IndexExpr) (value : Z) : bool :=
  match as_const_int lhs with
  | Some pvalue => (pvalue =? value)%Z
  | None => false
  end.

Definition any_warning (other : IndexExpr) (t1 t2 : TensorTypeNode) : Message :=
  [Text "Assert any == 1 || any == "; ShowExpr other;
   Text " in broadcast of "; ShowType t1; Text " and "; ShowType t2].

Definition incompatible_broadcast (t1 t2 : TensorTypeNode) : Fatal :=
  RelayError [Text "Incompatible broadcast type "; ShowType t1;
              Text " and "; ShowType t2].

(** The body of the first loop of [ConcreteBroadcast] once [s1] and [s2]
    are read: the chain of tests that gives the dimension pushed on [oshape]
    for the aligned pair, logs a warning for a wildcard, or raises. *)
Definition broadcast_dim (t1 t2 : TensorTypeNode) (s1 s2 : IndexExpr)
  : M IndexExpr :=
  if EqualCheck s1 s2 then ret s1
  else if EqualConstInt s1 1 then ret s2
  else if EqualConstInt s2 1 then ret s1
  else if same_as_Any s1 then
    LOG_WARNING (any_warning s2 t1 t2) ;;; ret s2
  else if same_as_Any s2 then
    LOG_WARNING (any_warning s1 t1 t2) ;;; ret s1
  else raise (incompatible_broadcast t1 t2).

(** The indices [ndim1 - i], [ndim2 - i] and [max_ndim - i] are [size_t]
    differences; the loop bounds keep [i] at most the subtrahend, so none
    wraps around.  [rshape] is [t1->shape] when [ndim1 > ndim2]. *)
Definition ConcreteBroadcast (t1 t2 : TensorTypeNode) (output_dtype : DataType)
  : M Ty :=
  let oshape : list IndexExpr := [] in
  let ndim1 := length (shape t1) in
  let ndim2 := length (shape t2) in
  let i := 1 in
  r <- for_le i (ndim1 `min` ndim2)
    (fun i oshape =>
       s1 <- at_index (shape t1) (ndim1 - i) ;;
       s2 <- at_index (shape t2) (ndim2 - i) ;;
       d <- broadcast_dim t1 t2 s1 s2 ;;
       ret (oshape ++ [d]))
    oshape ;;
  let i := r.1 in
  let oshape := r.2 in
  let max_ndim := ndim1 `max` ndim2 in
  let rshape := if decide (ndim2 < ndim1) then shape t1 else shape t2 in
  r <- for_le i max_ndim
    (fun i oshape =>
       d <- at_index rshape (max_ndim - i) ;;
       ret (oshape ++ [d]))
    oshape ;;
  let oshape := r.2 in
  ret (TensorType (mkTensorType (reverse oshape) output_dtype)).

Definition BroadcastRel (types : list Ty) (num_inputs : Z) (attrs : Attrs)
  : M bool :=
  CHECK_EQ (length types) 3 "types.size() == 3" ;;;
  ty0 <- at_index types 0 ;;
  match ToTensorType ty0 with
  | Some t0 =>
      ty1 <- at_index types 1 ;;
      match ToTensorType ty1 with
      | Some t1 =>
          CHECK_EQ (dtype t0) (dtype t1) "t0->dtype == t1->dtype" ;;;
          ty2 <- at_index types 2 ;;
          out <- ConcreteBroadcast t0 t1 (dtype t0) ;;
          Assign ty2 out ;;;
          ret true
      | None => ret false
      end
  | None => ret false
  end.

Definition BroadcastCompRel (types : list Ty) (num_inputs : Z) (attrs : Attrs)
  : M bool :=
  CHECK_EQ (length types) 3 "types.size() == 3" ;;;
  ty0 <- at_index types 0 ;;
  match ToTensorType ty0 with
  | Some t0 =>
      ty1 <- at_index types 1 ;;
      match ToTensorType ty1 with
      | Some t1 =>
          CHECK_EQ (dtype t0) (dtype t1) "t0->dtype == t1->dtype" ;;;
          ty2 <- at_index types 2 ;;
          out <- ConcreteBroadcast t0 t1 Bool_ ;;
          Assign ty2 out ;;;
          ret true
      | None => ret false
      end
  | None => ret false
  end.

End Relations.

(** ** Operator implementations, specializations and strategies
       ([op_attr_types.h], [op_attr_types.cc]) *)

(** A [SpecializedCondition] is an object reference, compared by identity
    ([e->condition == curr_cond]); the undefined reference ([None]) stands
    for the generic case. *)
Abbreviation SpecializedCondition := (option nat).

(** A reference to an [OpSpecializationNode] on the heap. *)
Abbreviation OpSpecialization := nat.

Section Strategies.

(** Compute and schedule functions are opaque packed functions. *)
Context {FTVMCompute FTVMSchedule : Type}.

(** An implementation is immutable once made. *)
Record OpImplementNode := mkOpImplementNode {
  fcompute : FTVMCompute;
  fschedule : FTVMSchedule;
  plevel : Z
}.

(** A specialization is mutable and shared: the strategy's array and the
    local [op_spec] of [OpStrategy::AddImplement] refer to one node. *)
Record OpSpecializationNode := mkOpSpecializationNode {
  implements : list OpImplementNode;
  condition : SpecializedCondition
}.

Record OpStrategyNode := mkOpStrategyNode {
  specializations : list OpSpecialization
}.

(** The object heap of specialization nodes and the strategy [this]. *)
Record Store := mkStore {
  heap : gmap nat OpSpecializationNode;
  this : OpStrategyNode
}.

(** [relay.op._make.OpStrategy]: a strategy with no specialization. *)
Definition make_OpStrategy (h : gmap nat OpSpecializationNode) : Store :=
  mkStore h (mkOpStrategyNode []).

(** [OpSpecialization::AddImplement]: push a new implementation on the
    node behind [self]. *)
Definition OpSpecialization_AddImplement (self : OpSpecialization)
    (fcompute : FTVMCompute) (fschedule : FTVMSchedule) (plevel : Z)
    (h : gmap nat OpSpecializationNode) : gmap nat OpSpecializationNode :=
  let n := mkOpImplementNode fcompute fschedule plevel in
  alter (fun node => mkOpSpecializationNode (implements node ++ [n]) (condition node))
        self h.

(** The search loop of [OpStrategy::AddImplement]: the first
    specialization whose condition is [curr_cond], if any. *)
Fixpoint find_specialization (h : gmap nat OpSpecializationNode)
    (specializations : list OpSpecialization) (curr_cond : SpecializedCondition)
    : option OpSpecialization :=
  match specializations with
  | [] => None
  | e :: rest =>
      match h !! e with
      | Some node =>
          if decide (condition node = curr_cond) then Some e
          else find_specialization h rest curr_cond
      | None => find_specialization h rest curr_cond
      end
  end.

(** [OpStrategy::AddImplement], with the ambient
    [SpecializedCondition::Current()] as the argument [curr_cond]. *)
Definition OpStrategy_AddImplement (curr_cond : SpecializedCondition)
    (fcompute : FTVMCompute) (fschedule : FTVMSchedule) (plevel : Z)
    (st : Store) : Store :=
  let specializations_ := specializations (this st) in
  match find_specialization (heap st) specializations_ curr_cond with
  | Some op_spec =>
      mkStore (OpSpecialization_AddImplement op_spec fcompute fschedule plevel (heap st))
              (this st)
  | None =>
      let op_spec := fresh (dom (heap st)) in
      let n := mkOpSpecializationNode [] curr_cond in
      let h := <[op_spec := n]> (heap st) in
      let h := OpSpecialization_AddImplement op_spec fcompute fschedule plevel h in
      mkStore h (mkOpStrategyNode (specializations (this st) ++ [op_spec]))
  end.

(** One registration call: the active condition and the arguments. *)
Record Registration := mkRegistration {
  reg_cond : SpecializedCondition;
  reg_compute : FTVMCompute;
  reg_schedule : FTVMSchedule;
  reg_plevel : Z
}.

Definition register (st : Store) (r : Registration) : Store :=
  OpStrategy_AddImplement (reg_cond r) (reg_compute r) (reg_schedule r)
                          (reg_plevel r) st.

(** A sequence of [AddImplement] calls, first call first. *)
Definition register_all (rs : list Registration) (st : Store) : Store :=
  foldl register st rs.

(** What the strategy holds: its specialization nodes, read through the
    references of its array. *)
Definition specialization_nodes (st : Store) : list OpSpecializationNode :=
  omap (fun e => heap st !! e) (specializations (this st)).

Definition conditions (st : Store) : list SpecializedCondition :=
  condition <$> specialization_nodes st.

(** Every reference held by the strategy points to a node. *)
Definition valid_refs (st : Store) : Prop :=
  forall e, e ∈ specializations (this st) -> is_Some (heap st !! e).

End Strategies.

(** ** Definitions used by the statements *)

(** A concrete shape: every dimension is an integer literal. *)
Definition concrete_dim (e : IndexExpr) : Prop := exists v, e = IntImm v.
Definition concrete_shape (sh : list IndexExpr) : Prop := Forall concrete_dim sh.

Section BroadcastRule.

Variable CanonicalSimplify : IndexExpr -> IndexExpr.

(** The rule for one aligned pair in the words of the specification, for
    dimensions that are not the wildcard: [s1] if the two are provably
    equal, else [s2] if [s1] is the literal 1, else [s1] if [s2] is the
    literal 1, else no dimension (the shapes are incompatible). *)
Definition spec_pair (s1 s2 : IndexExpr) : option IndexExpr :=
  if EqualCheck CanonicalSimplify s1 s2 then Some s1
  else if decide (s1 = IntImm 1) then Some s2
  else if decide (s2 = IntImm 1) then Some s1
  else None.

(** The specification's walk over two shapes read right to left (innermost
    dimension first): aligned pairs are resolved by [spec_pair]; once one
    shape is used up, the other one's remaining dimensions pass through. *)
Fixpoint spec_align (r1 r2 : list IndexExpr) : option (list IndexExpr) :=
  match r1, r2 with
  | [], _ => Some r2
  | _, [] => Some r1
  | s1 :: r1', s2 :: r2' =>
      match spec_pair s1 s2, spec_align r1' r2' with
      | Some d, Some ds => Some (d :: ds)
      | _, _ => None
      end
  end.

(** The specification's broadcast of two shapes written left to right. *)
Definition spec_broadcast (sh1 sh2 : list IndexExpr) : option (list IndexExpr) :=
  reverse <$> spec_align (reverse sh1) (reverse sh2).

(** The two loops of [ConcreteBroadcast] as one recursion over the shapes
    read right to left. *)
Fixpoint walk (t1 t2 : TensorTypeNode) (r1 r2 : list IndexExpr)
  : M (list IndexExpr) :=
  match r1, r2 with
  | [], _ => ret r2
  | _, [] => ret r1
  | s1 :: r1', s2 :: r2' =>
      d <- broadcast_dim CanonicalSimplify t1 t2 s1 s2 ;;
      ds <- walk t1 t2 r1' r2' ;;
      ret (d :: ds)
  end.

End BroadcastRule.

(** One simplifier that meets both conditions on simplifiers stated below,
    over sums and differences of atoms: the coefficient of an atom, the constant part, and the atoms of
    an expression. *)
Definition same_atom (a b : option string) : bool := bool_decide (a = b).

Fixpoint coeff (a : option string) (e : IndexExpr) : Z :=
  match e with
  | IntImm _ => 0
  | Var x => if same_atom a (Some x) then 1 else 0
  | Any => if same_atom a None then 1 else 0
  | Add e1 e2 => coeff a e1 + coeff a e2
  | Sub e1 e2 => coeff a e1 - coeff a e2
  end%Z.

Fixpoint konst (e : IndexExpr) : Z :=
  match e with
  | IntImm v => v
  | Var _ | Any => 0
  | Add e1 e2 => konst e1 + konst e2
  | Sub e1 e2 => konst e1 - konst e2
  end%Z.

Fixpoint atoms (e : IndexExpr) : list (option string) :=
  match e with
  | IntImm _ => []
  | Var x => [Some x]
  | Any => [None]
  | Add e1 e2 | Sub e1 e2 => atoms e1 ++ atoms e2
  end.

(** Fold an expression whose atoms all cancel to its constant part, and
    leave any other expression as it is. *)
Definition linear_simplify (e : IndexExpr) : IndexExpr :=
  if forallb (fun a => coeff a e =? 0)%Z (atoms e) then IntImm (konst e) else e.

(** Two conditions on a simplifier.  Neither is assumed of
    [CanonicalSimplify]: the check built on it is conservative, and an
    expression that is zero may well be left undecided.  A property that
    needs one of them names it as its own hypothesis.

    A simplifier is value preserving when it keeps the value of every
    expression under every assignment. *)
Definition simplifier_sound (simplify : IndexExpr -> IndexExpr) : Prop :=
  forall e env, eval env (simplify e) = eval env e.

(** A simplifier decides zero when it folds every expression that is zero
    under all assignments to the literal 0. *)
Definition simplifier_complete (simplify : IndexExpr -> IndexExpr) : Prop :=
  forall e, (forall env, eval env e = 0%Z) -> simplify e = IntImm 0.

(** The weighted sum of the coefficients of [e] over a list of atoms. *)
Fixpoint linear_part (env : Env) (e : IndexExpr) (L : list (option string)) : Z :=
  match L with
  | [] => 0
  | a :: L' => coeff a e * env a + linear_part env e L'
  end%Z.


(** ** Definitions used by the further properties *)

(** A dimension that is an integer literal in the range of a 64-bit signed
    integer, as every literal built by the source is. *)
Definition int64_dim (e : IndexExpr) : Prop :=
  exists v, e = IntImm v /\ (- 2 ^ 63 <= v < 2 ^ 63)%Z.
Definition int64_shape (sh : list IndexExpr) : Prop := Forall int64_dim sh.

(** A dimension other than the wildcard. *)
Definition no_wildcard (sh : list IndexExpr) : Prop := Forall (fun e => e <> Any) sh.

Section StrategyViews.

Context {FTVMCompute FTVMSchedule : Type}.

(** The implementation node that a registration call builds. *)
Definition implement_of (r : @Registration FTVMCompute FTVMSchedule)
  : @OpImplementNode FTVMCompute FTVMSchedule :=
  mkOpImplementNode (reg_compute r) (reg_schedule r) (reg_plevel r).

(** What one call does to the list of nodes of a strategy: the first node
    with the condition gets the implementation appended; without such a node
    a new one, holding the implementation alone, goes to the end. *)
Fixpoint add_to_nodes (c : SpecializedCondition)
    (n : @OpImplementNode FTVMCompute FTVMSchedule)
    (nodes : list (@OpSpecializationNode FTVMCompute FTVMSchedule))
  : list (@OpSpecializationNode FTVMCompute FTVMSchedule) :=
  match nodes with
  | [] => [mkOpSpecializationNode [n] c]
  | node :: rest =>
      if decide (condition node = c)
      then mkOpSpecializationNode (implements node ++ [n]) (condition node) :: rest
      else node :: add_to_nodes c n rest
  end.

(** The members of a list in the order of their first occurrence. *)
Fixpoint first_occurrences (l : list SpecializedCondition)
  : list SpecializedCondition :=
  match l with
  | [] => []
  | c :: l' => c :: filter (fun c' => c' <> c) (first_occurrences l')
  end.

(** The registrations made under one condition, in call order. *)
Definition registered_under (c : SpecializedCondition)
    (rs : list (@Registration FTVMCompute FTVMSchedule))
  : list (@OpImplementNode FTVMCompute FTVMSchedule) :=
  implement_of <$> filter (fun r => reg_cond r = c) rs.

(** The registrations grouped by condition: one node per condition, in the
    order in which the conditions first come up. *)
Definition group_registrations (rs : list (@Registration FTVMCompute FTVMSchedule))
  : list (@OpSpecializationNode FTVMCompute FTVMSchedule) :=
  (fun c => mkOpSpecializationNode (registered_under c rs) c)
    <$> first_occurrences (reg_cond <$> rs).

(** The number of implementations held by a list of nodes. *)
Definition total_implements
    (nodes : list (@OpSpecializationNode FTVMCompute FTVMSchedule)) : nat :=
  sum_list ((fun node => length (implements node)) <$> nodes).

End StrategyViews.

(** * Properties *)

(** ** Index expressions and [EqualCheck] *)

Lemma wrap64_zero_iff (z : Z) : wrap64 z = 0%Z <-> (z mod 2 ^ 64 = 0)%Z.
Proof.
  unfold wrap64.
  change (2 ^ 63)%Z with 9223372036854775808%Z.
  change (2 ^ 64)%Z with 18446744073709551616%Z.
  Z.to_euclidean_division_equations. lia.
Qed.

Lemma wrap64_diff_sym (x y : Z) :
  (wrap64 (x - y) =? 0)%Z = (wrap64 (y - x) =? 0)%Z.
Proof.
  apply eq_true_iff_eq. rewrite !Z.eqb_eq, !wrap64_zero_iff.
  change (2 ^ 64)%Z with 18446744073709551616%Z.
  Z.to_euclidean_division_equations. lia.
Qed.

Lemma wrap64_diff_refl (x : Z) : wrap64 (x - x) = 0%Z.
Proof. rewrite Z.sub_diag. reflexivity. Qed.

Lemma as_const_int_Some (e : IndexExpr) (v : Z) :
  as_const_int e = Some v <-> e = IntImm v.
Proof. destruct e; simpl; split; intros H; congruence. Qed.

Lemma eval_expr_sub (env : Env) (a b : IndexExpr) :
  as_const_int (expr_sub a b) = None ->
  eval env (expr_sub a b) = (eval env a - eval env b)%Z.
Proof.
  destruct a as [[| |]| | | |], b as [[| |]| | | |]; simpl; try discriminate; intros _;
    try reflexivity; lia.
Qed.

Lemma expr_sub_literal (a b : IndexExpr) (d : Z) :
  as_const_int (expr_sub a b) = Some d ->
  exists x y, a = IntImm x /\ b = IntImm y /\ d = wrap64 (x - y).
Proof.
  destruct a as [[| |]| | | |], b as [[| |]| | | |]; simpl; try discriminate;
    intros [= <-]; eauto.
Qed.

Lemma expr_sub_symbolic_sym (a b : IndexExpr) :
  as_const_int (expr_sub a b) = None -> as_const_int (expr_sub b a) = None.
Proof.
  destruct a as [[| |]| | | |], b as [[| |]| | | |]; simpl; try discriminate; reflexivity.
Qed.

Section EqualCheckFacts.

Variable CanonicalSimplify : IndexExpr -> IndexExpr.
Hypothesis sound : simplifier_sound CanonicalSimplify.
Hypothesis complete : simplifier_complete CanonicalSimplify.

Lemma EqualCheck_symbolic (a b : IndexExpr) :
  as_const_int (expr_sub a b) = None ->
  EqualCheck CanonicalSimplify a b = true <->
  forall env, eval env a = eval env b.
Proof using sound complete.
  intros Hsym. unfold EqualCheck. rewrite Hsym. split.
  - destruct (as_const_int (CanonicalSimplify _)) as [p|] eqn:E; [|discriminate].
    intros Hp%Z.eqb_eq env. apply as_const_int_Some in E.
    pose proof (sound (expr_sub a b) env) as Hs.
    rewrite E, eval_expr_sub in Hs by exact Hsym. simpl in Hs. lia.
  - intros H. rewrite (complete (expr_sub a b)); [reflexivity|].
    intros env. rewrite eval_expr_sub by exact Hsym. rewrite H. lia.
Qed.

Lemma EqualCheck_literal (x y : Z) :
  EqualCheck CanonicalSimplify (IntImm x) (IntImm y) = (wrap64 (x - y) =? 0)%Z.
Proof. reflexivity. Qed.

Lemma EqualCheck_refl (x : IndexExpr) : EqualCheck CanonicalSimplify x x = true.
Proof using sound complete.
  destruct (as_const_int (expr_sub x x)) as [d|] eqn:E.
  - apply expr_sub_literal in E as (v & v' & -> & [= <-] & ->).
    rewrite EqualCheck_literal, wrap64_diff_refl. reflexivity.
  - apply EqualCheck_symbolic; [exact E | reflexivity].
Qed.

Lemma EqualCheck_sym (a b : IndexExpr) :
  EqualCheck CanonicalSimplify a b = EqualCheck CanonicalSimplify b a.
Proof using sound complete.
  destruct (as_const_int (expr_sub a b)) as [d|] eqn:E.
  - apply expr_sub_literal in E as (x & y & -> & -> & ->).
    rewrite !EqualCheck_literal. apply wrap64_diff_sym.
  - pose proof (expr_sub_symbolic_sym _ _ E) as E'.
    apply eq_true_iff_eq.
    rewrite (EqualCheck_symbolic _ _ E), (EqualCheck_symbolic _ _ E').
    split; intros H env; symmetry; apply H.
Qed.

End EqualCheckFacts.

(** The simplifier over sums and differences is value preserving and decides zero. *)

Lemma eval_zero_env (e : IndexExpr) : eval (fun _ => 0%Z) e = konst e.
Proof. induction e; simpl; lia. Qed.

Lemma eval_unit_env (a : option string) (e : IndexExpr) :
  eval (fun b => if same_atom a b then 1 else 0)%Z e = (konst e + coeff a e)%Z.
Proof.
  induction e as [v|x| |e1 IH1 e2 IH2|e1 IH1 e2 IH2]; simpl; lia.
Qed.

Lemma linear_part_atom (env : Env) (e : IndexExpr) (b : option string)
    (L : list (option string)) :
  (forall a, coeff a e = if same_atom a b then 1 else 0)%Z ->
  NoDup L -> b ∈ L -> linear_part env e L = env b.
Proof.
  intros Hc. induction 1 as [|a L Hna Hnd IH]; intros Hin.
  - inversion Hin.
  - simpl. rewrite Hc. unfold same_atom. case_bool_decide as Hab; [subst a|].
    + assert (linear_part env e L = 0%Z) as ->; [|lia].
      clear IH Hin Hnd. induction L as [|c L IHL]; [reflexivity|].
      simpl. rewrite Hc. apply not_elem_of_cons in Hna as [Hcb HL].
      unfold same_atom. rewrite bool_decide_eq_false_2 by congruence.
      rewrite IHL by exact HL. lia.
    + apply elem_of_cons in Hin as [->|Hin]; [congruence|].
      rewrite IH by exact Hin. lia.
Qed.

Lemma eval_linear (env : Env) (e : IndexExpr) (L : list (option string)) :
  NoDup L -> (forall a, a ∈ atoms e -> a ∈ L) ->
  eval env e = (konst e + linear_part env e L)%Z.
Proof.
  intros Hnd.
  induction e as [v|x| |e1 IHe1 e2 IHe2|e1 IHe1 e2 IHe2]; simpl; intros Hsub.
  - assert (linear_part env (IntImm v) L = 0%Z) as ->; [|lia].
    clear. induction L; simpl; lia.
  - rewrite (linear_part_atom env _ (Some x)); [lia| |done|].
    + intros a. reflexivity.
    + apply Hsub. left.
  - rewrite (linear_part_atom env _ None); [lia| |done|].
    + intros a. reflexivity.
    + apply Hsub. left.
  - rewrite IHe1, IHe2 by (intros a Ha; apply Hsub, elem_of_app; auto).
    assert (linear_part env (Add e1 e2) L
            = linear_part env e1 L + linear_part env e2 L)%Z as ->; [|lia].
    clear. induction L; simpl; lia.
  - rewrite IHe1, IHe2 by (intros a Ha; apply Hsub, elem_of_app; auto).
    assert (linear_part env (Sub e1 e2) L
            = linear_part env e1 L - linear_part env e2 L)%Z as ->; [|lia].
    clear. induction L; simpl; lia.
Qed.

Lemma linear_simplify_sound : simplifier_sound linear_simplify.
Proof.
  intros e env. unfold linear_simplify.
  destruct (forallb _ _) eqn:E; [|reflexivity].
  simpl. rewrite (eval_linear env e (remove_dups (atoms e))).
  - assert (linear_part env e (remove_dups (atoms e)) = 0%Z) as ->; [|lia].
    rewrite forallb_forall in E.
    assert (forall a, a ∈ remove_dups (atoms e) -> coeff a e = 0%Z) as Hz.
    { intros a Ha. apply (proj1 (elem_of_remove_dups _ _)) in Ha.
      apply Z.eqb_eq, E, list_elem_of_In, Ha. }
    induction (remove_dups (atoms e)) as [|a L IH]; [reflexivity|].
    simpl. rewrite Hz by left. rewrite IH; [lia|].
    intros b Hb. apply Hz. right. exact Hb.
  - apply NoDup_remove_dups.
  - intros a Ha. apply elem_of_remove_dups, Ha.
Qed.

Lemma linear_simplify_complete : simplifier_complete linear_simplify.
Proof.
  intros e Hz. unfold linear_simplify.
  assert (konst e = 0%Z) as Hk by (rewrite <- eval_zero_env; apply Hz).
  assert (forallb (fun a => coeff a e =? 0)%Z (atoms e) = true) as ->.
  { apply forallb_forall. intros a _. apply Z.eqb_eq.
    pose proof (eval_unit_env a e) as Hu. rewrite Hz in Hu. lia. }
  rewrite Hk. reflexivity.
Qed.







(** ** The relation monad and its loops *)

Lemma bind_run {A B} (m : M A) (k : A -> M B) (w : World) :
  bind m k w = match m w with
               | (Ok a, w') => k a w'
               | (Raise e, w') => (Raise e, w')
               end.
Proof. reflexivity. Qed.

Lemma ret_run {A} (a : A) (w : World) : ret a w = (Ok a, w).
Proof. reflexivity. Qed.

Lemma at_index_Some {A} (arr : list A) (i : nat) (x : A) (w : World) :
  arr !! i = Some x -> at_index arr i w = (Ok x, w).
Proof. unfold at_index. intros ->. reflexivity. Qed.

Lemma at_index_reverse {A} (arr : list A) (k : nat) (x : A) (w : World) :
  reverse arr !! k = Some x -> at_index arr (length arr - S k) w = (Ok x, w).
Proof.
  intros H. apply at_index_Some. rewrite <- H. symmetry. apply reverse_lookup.
  apply lookup_lt_Some in H. rewrite length_reverse in H. exact H.
Qed.

Lemma take_drop_S {A} (l : list A) (k count : nat) (x : A) :
  l !! k = Some x ->
  take (S count) (drop k l) = x :: take count (drop (S k) l).
Proof. intros H. rewrite (drop_S _ _ _ H). reflexivity. Qed.

(** ** [IdentityRel] *)

Lemma IdentityRel_loop (t0 : Ty) (rest : list Ty) (count k : nat) (w : World) :
  k + count <= length rest ->
  for_count count (S k)
    (fun i (_ : unit) =>
       dst <- at_index (t0 :: rest) i ;;
       src <- at_index (t0 :: rest) 0 ;;
       Assign dst src) tt w
  = (Ok (S k + count, tt),
     mkWorld (assigned w ++ ((fun t => (t, t0)) <$> take count (drop k rest)))
             (warnings w)).
Proof.
  revert k w. induction count as [|count IH]; intros k w Hle.
  - simpl. unfold ret. rewrite app_nil_r, Nat.add_0_r. destruct w; reflexivity.
  - destruct (lookup_lt_is_Some_2 rest k ltac:(lia)) as [x Hx].
    simpl for_count. unfold bind at 1.
    unfold bind at 1. rewrite (at_index_Some (t0 :: rest) (S k) x) by exact Hx.
    unfold bind at 1. rewrite (at_index_Some (t0 :: rest) 0 t0) by reflexivity.
    unfold Assign at 1. rewrite IH by lia. simpl.
    rewrite (take_drop_S _ _ _ _ Hx). rewrite fmap_cons, <- app_assoc. simpl.
    rewrite <- Nat.add_succ_r. reflexivity.
Qed.

(** C8: for every sequence of types, whatever [num_inputs] and [attrs],
    [IdentityRel] returns [true]; it logs no warning and records exactly the
    assignments [types[i] := types[0]] for [i = 1, ..., len(types) - 1], in
    this order, so every listed type is recorded equal to the first. *)
Theorem IdentityRel_assigns_first {Attrs : Type} (types : list Ty)
    (num_inputs : Z) (attrs : Attrs) (w : World) :
  exists w',
    IdentityRel types num_inputs attrs w = (Ok true, w') /\
    warnings w' = warnings w /\
    assigned w' = assigned w ++
                  match types with
                  | [] => []
                  | t0 :: rest => (fun t => (t, t0)) <$> rest
                  end /\
    (forall i ti t0,
        1 <= i -> types !! i = Some ti -> types !! 0 = Some t0 ->
        (ti, t0) ∈ assigned w').
Proof.
  unfold IdentityRel, for_lt. destruct types as [|t0 rest].
  - exists w. simpl. rewrite app_nil_r. repeat split; try reflexivity.
    intros i ti t0 _ Hi. rewrite lookup_nil in Hi. discriminate.
  - eexists. unfold bind at 1.
    replace (length (t0 :: rest) - 1) with (length rest) by (simpl; lia).
    rewrite IdentityRel_loop by lia. rewrite firstn_all, drop_0.
    split; [reflexivity|]. simpl. repeat split.
    intros i ti t0' Hi Hti [= <-].
    destruct i as [|i]; [lia|]. simpl in Hti.
    apply elem_of_app. right. apply (list_elem_of_fmap_2 (fun t => (t, t0))).
    apply list_elem_of_lookup. eauto.
Qed.

Lemma IdentityRel_assigns_first_witness :
  IdentityRel [IncompleteType 0; IncompleteType 1; TupleType []] 1 tt
              (mkWorld [] [])
  = (Ok true,
     mkWorld [(IncompleteType 1, IncompleteType 0);
              (TupleType [], IncompleteType 0)] []).
Proof.
  destruct (IdentityRel_assigns_first
              [IncompleteType 0; IncompleteType 1; TupleType []] 1 tt
              (mkWorld [] [])) as (w' & -> & Hwarn & Hassigned & _).
  destruct w' as [a m]. simpl in Hwarn, Hassigned. rewrite Hwarn, Hassigned.
  reflexivity.
Defined.

(** ** [BroadcastRel] and [BroadcastCompRel]: arity, input kinds, dtypes *)

(** C10: with a number of types other than 3, [BroadcastRel] and
    [BroadcastCompRel] fail the [CHECK_EQ] on the arity: the call aborts with
    a fatal error and does not return [false]; nothing is assigned. *)
Theorem Broadcast_arity_check (CanonicalSimplify : IndexExpr -> IndexExpr)
    {Attrs : Type} (types : list Ty) (num_inputs : Z) (attrs : Attrs) (w : World) :
  length types <> 3 ->
  BroadcastRel CanonicalSimplify types num_inputs attrs w
  = (Raise (CheckFailed "types.size() == 3"), w) /\
  BroadcastCompRel CanonicalSimplify types num_inputs attrs w
  = (Raise (CheckFailed "types.size() == 3"), w).
Proof.
  intros Hlen. unfold BroadcastRel, BroadcastCompRel, bind, CHECK_EQ.
  destruct (decide (length types = 3)) as [Heq|_]; [contradiction|].
  split; reflexivity.
Qed.

Lemma Broadcast_arity_check_witness :
  length [IncompleteType 0; IncompleteType 1] <> 3 /\
  BroadcastRel linear_simplify [IncompleteType 0; IncompleteType 1] 1 tt
               (mkWorld [] [])
  = (Raise (CheckFailed "types.size() == 3"), mkWorld [] []) /\
  BroadcastCompRel linear_simplify [IncompleteType 0; IncompleteType 1] 1 tt
               (mkWorld [] [])
  = (Raise (CheckFailed "types.size() == 3"), mkWorld [] []).
Proof.
  split; [simpl; lia|].
  apply (Broadcast_arity_check linear_simplify
           [IncompleteType 0; IncompleteType 1] 1 tt (mkWorld [] [])).
  simpl; lia.
Defined.

(** C4: with exactly 3 types of which the first or the second is not a
    tensor type, [BroadcastRel] and [BroadcastCompRel] return [false]; no
    error is raised and the reporter and the log are left as they were. *)
Theorem Broadcast_non_tensor_defers (CanonicalSimplify : IndexExpr -> IndexExpr)
    {Attrs : Type} (ty0 ty1 ty2 : Ty) (num_inputs : Z) (attrs : Attrs) (w : World) :
  ToTensorType ty0 = None \/ ToTensorType ty1 = None ->
  BroadcastRel CanonicalSimplify [ty0; ty1; ty2] num_inputs attrs w = (Ok false, w) /\
  BroadcastCompRel CanonicalSimplify [ty0; ty1; ty2] num_inputs attrs w = (Ok false, w).
Proof.
  intros H. unfold BroadcastRel, BroadcastCompRel, bind. simpl.
  destruct (ToTensorType ty0) as [t0|] eqn:E0; [|split; reflexivity].
  destruct H as [H|H]; [discriminate|]. simpl. rewrite H. split; reflexivity.
Qed.

Lemma Broadcast_non_tensor_defers_witness :
  let t := TensorType (mkTensorType [IntImm 3; IntImm 4] (Float_ 32)) in
  let w := mkWorld [] [] in
  (ToTensorType t = None \/ ToTensorType (IncompleteType 7) = None) /\
  BroadcastRel linear_simplify [t; IncompleteType 7; IncompleteType 8] 2 tt w
  = (Ok false, w) /\
  BroadcastCompRel linear_simplify [t; IncompleteType 7; IncompleteType 8] 2 tt w
  = (Ok false, w).
Proof.
  intros t w. split; [right; reflexivity|].
  apply (Broadcast_non_tensor_defers linear_simplify t (IncompleteType 7)
           (IncompleteType 8) 2 tt w).
  right; reflexivity.
Defined.

(** C6: with two tensor types of unequal dtypes as inputs, [BroadcastRel]
    and [BroadcastCompRel] fail the [CHECK_EQ] on the dtypes: a fatal error
    and not a [false] return, with nothing assigned to the output slot. *)
Theorem Broadcast_dtype_check (CanonicalSimplify : IndexExpr -> IndexExpr)
    {Attrs : Type} (t0 t1 : TensorTypeNode) (ty2 : Ty) (num_inputs : Z)
    (attrs : Attrs) (w : World) :
  dtype t0 <> dtype t1 ->
  BroadcastRel CanonicalSimplify [TensorType t0; TensorType t1; ty2]
               num_inputs attrs w
  = (Raise (CheckFailed "t0->dtype == t1->dtype"), w) /\
  BroadcastCompRel CanonicalSimplify [TensorType t0; TensorType t1; ty2]
               num_inputs attrs w
  = (Raise (CheckFailed "t0->dtype == t1->dtype"), w).
Proof.
  intros Hne. unfold BroadcastRel, BroadcastCompRel, bind. simpl.
  unfold CHECK_EQ. destruct (decide (dtype t0 = dtype t1)); [contradiction|].
  split; reflexivity.
Qed.

Lemma Broadcast_dtype_check_witness :
  let t0 := mkTensorType [IntImm 3; IntImm 4] (Float_ 32) in
  let t1 := mkTensorType [IntImm 3; IntImm 4] (Int_ 32) in
  let w := mkWorld [] [] in
  dtype t0 <> dtype t1 /\
  BroadcastRel linear_simplify [TensorType t0; TensorType t1; IncompleteType 0]
               2 tt w
  = (Raise (CheckFailed "t0->dtype == t1->dtype"), w) /\
  BroadcastCompRel linear_simplify [TensorType t0; TensorType t1; IncompleteType 0]
               2 tt w
  = (Raise (CheckFailed "t0->dtype == t1->dtype"), w).
Proof.
  intros t0 t1 w. split; [discriminate|].
  apply (Broadcast_dtype_check linear_simplify t0 t1 (IncompleteType 0) 2 tt w).
  discriminate.
Defined.

(** ** [ConcreteBroadcast]: the two loops as one walk from the right *)

Section BroadcastLoops.

Variable CanonicalSimplify : IndexExpr -> IndexExpr.
Variables t1 t2 : TensorTypeNode.

Lemma overlap_loop (count k : nat) (acc : list IndexExpr) (w : World) :
  k + count <= length (shape t1) ->
  k + count <= length (shape t2) ->
  for_count count (S k)
    (fun i oshape =>
       s1 <- at_index (shape t1) (length (shape t1) - i) ;;
       s2 <- at_index (shape t2) (length (shape t2) - i) ;;
       d <- broadcast_dim CanonicalSimplify t1 t2 s1 s2 ;;
       ret (oshape ++ [d])) acc w
  = (ds <- walk CanonicalSimplify t1 t2
             (take count (drop k (reverse (shape t1))))
             (take count (drop k (reverse (shape t2)))) ;;
     ret (S k + count, acc ++ ds)) w.
Proof.
  revert k acc w. induction count as [|count IH]; intros k acc w H1 H2.
  - simpl. rewrite bind_run, !ret_run, app_nil_r, Nat.add_0_r. reflexivity.
  - destruct (lookup_lt_is_Some_2 (reverse (shape t1)) k) as [x Hx];
      [rewrite length_reverse; lia|].
    destruct (lookup_lt_is_Some_2 (reverse (shape t2)) k) as [y Hy];
      [rewrite length_reverse; lia|].
    rewrite (take_drop_S _ _ _ _ Hx), (take_drop_S _ _ _ _ Hy).
    simpl for_count. simpl walk. rewrite !bind_run.
    rewrite (at_index_reverse _ _ _ _ Hx), bind_run.
    rewrite (at_index_reverse _ _ _ _ Hy), bind_run.
    destruct (broadcast_dim _ t1 t2 x y w) as [[d|e] w1]; [|reflexivity].
    rewrite ret_run, IH by lia. rewrite !bind_run.
    destruct (walk _ t1 t2 _ _ w1) as [[ds|e] w2]; [|reflexivity].
    rewrite !ret_run, <- app_assoc.
    replace (S (S k) + count) with (S k + S count) by lia. reflexivity.
Qed.

Lemma leading_loop (rshape : list IndexExpr) (count k : nat)
    (acc : list IndexExpr) (w : World) :
  k + count <= length rshape ->
  for_count count (S k)
    (fun i oshape =>
       d <- at_index rshape (length rshape - i) ;;
       ret (oshape ++ [d])) acc w
  = (Ok (S k + count, acc ++ take count (drop k (reverse rshape))), w).
Proof.
  revert k acc. induction count as [|count IH]; intros k acc Hle.
  - simpl. rewrite ret_run, app_nil_r, Nat.add_0_r. reflexivity.
  - destruct (lookup_lt_is_Some_2 (reverse rshape) k) as [x Hx];
      [rewrite length_reverse; lia|].
    rewrite (take_drop_S _ _ _ _ Hx). simpl for_count. rewrite !bind_run.
    rewrite (at_index_reverse _ _ _ _ Hx), ret_run.
    rewrite IH by lia. rewrite <- app_assoc.
    replace (S (S k) + count) with (S k + S count) by lia. reflexivity.
Qed.

(** The walk splits into the aligned part and the leading dimensions of
    the longer shape. *)
Lemma walk_split (r1 r2 : list IndexExpr) (w : World) :
  walk CanonicalSimplify t1 t2 r1 r2 w
  = (ds <- walk CanonicalSimplify t1 t2
             (take (length r1 `min` length r2) r1)
             (take (length r1 `min` length r2) r2) ;;
     ret (ds ++ drop (length r1 `min` length r2)
                     (if decide (length r2 < length r1) then r1 else r2))) w.
Proof.
  revert r2 w. induction r1 as [|s1 r1 IH]; intros [|s2 r2] w.
  - reflexivity.
  - reflexivity.
  - reflexivity.
  - cbn [length Nat.min take walk]. rewrite !bind_run.
    destruct (broadcast_dim _ t1 t2 s1 s2 w) as [[d|e] w1]; [|reflexivity].
    rewrite !bind_run, IH, !bind_run.
    destruct (walk _ t1 t2 _ _ w1) as [[ds|e] w2]; [|reflexivity].
    rewrite !ret_run. simpl.
    destruct (decide (length r2 < length r1)),
             (decide (S (length r2) < S (length r1)));
      try reflexivity; lia.
Qed.

Lemma ConcreteBroadcast_walk (output_dtype : DataType) (w : World) :
  ConcreteBroadcast CanonicalSimplify t1 t2 output_dtype w
  = (ds <- walk CanonicalSimplify t1 t2
             (reverse (shape t1)) (reverse (shape t2)) ;;
     ret (TensorType (mkTensorType (reverse ds) output_dtype))) w.
Proof.
  unfold ConcreteBroadcast, for_le.
  set (n1 := length (shape t1)). set (n2 := length (shape t2)).
  rewrite (bind_run (walk _ _ _ _ _)), walk_split, !length_reverse.
  fold n1 n2.
  replace (n1 `min` n2 + 1 - 1) with (n1 `min` n2) by lia.
  rewrite bind_run, overlap_loop by (fold n1 n2; lia). rewrite !drop_0.
  rewrite !bind_run.
  destruct (walk _ t1 t2 _ _ w) as [[ds|e] w1]; [|reflexivity].
  rewrite !ret_run. simpl fst. simpl snd. simpl app.
  set (rshape := if decide (n2 < n1) then shape t1 else shape t2).
  assert (length rshape = n1 `max` n2) as Hlen.
  { unfold rshape. destruct (decide (n2 < n1)); fold n1 n2; lia. }
  rewrite <- Hlen, bind_run.
  replace (length rshape + 1 - (1 + n1 `min` n2))
    with (length rshape - n1 `min` n2) by lia.
  rewrite leading_loop by lia.
  rewrite ret_run. simpl snd. repeat f_equal.
  assert (reverse rshape = if decide (n2 < n1) then reverse (shape t1)
                           else reverse (shape t2)) as <-.
  { unfold rshape. destruct (decide (n2 < n1)); reflexivity. }
  apply take_ge. rewrite length_drop, length_reverse. lia.
Qed.

End BroadcastLoops.

(** ** One aligned pair *)

Lemma EqualConstInt_true (e : IndexExpr) (v : Z) :
  EqualConstInt e v = true <-> e = IntImm v.
Proof.
  unfold EqualConstInt. destruct e; simpl; split; try discriminate.
  - intros H%Z.eqb_eq. congruence.
  - intros [= ->]. apply Z.eqb_refl.
Qed.

Lemma EqualConstInt_decide (e : IndexExpr) (v : Z) :
  EqualConstInt e v = bool_decide (e = IntImm v).
Proof.
  apply eq_true_iff_eq. rewrite bool_decide_eq_true.
  apply EqualConstInt_true.
Qed.

Section BroadcastDim.

Variable CanonicalSimplify : IndexExpr -> IndexExpr.
Variables t1 t2 : TensorTypeNode.

(** A pair either resolves, leaving the reporter alone and adding at most
    warnings to the log, or raises the incompatibility error at once. *)
Lemma broadcast_dim_outcome (s1 s2 : IndexExpr) (w : World) :
  (exists d w', broadcast_dim CanonicalSimplify t1 t2 s1 s2 w = (Ok d, w') /\
                assigned w' = assigned w /\
                exists ms, warnings w' = warnings w ++ ms) \/
  broadcast_dim CanonicalSimplify t1 t2 s1 s2 w
  = (Raise (incompatible_broadcast t1 t2), w).
Proof.
  unfold broadcast_dim.
  destruct (EqualCheck _ s1 s2);
    [left; exists s1, w; repeat split; exists []; symmetry; apply app_nil_r|].
  destruct (EqualConstInt s1 1);
    [left; exists s2, w; repeat split; exists []; symmetry; apply app_nil_r|].
  destruct (EqualConstInt s2 1);
    [left; exists s1, w; repeat split; exists []; symmetry; apply app_nil_r|].
  destruct (same_as_Any s1);
    [left; eexists s2, _; repeat split; eexists; reflexivity|].
  destruct (same_as_Any s2);
    [left; eexists s1, _; repeat split; eexists; reflexivity|].
  right. reflexivity.
Qed.

Lemma broadcast_dim_incompatible (s1 s2 : IndexExpr) (w : World) :
  EqualCheck CanonicalSimplify s1 s2 = false ->
  s1 <> IntImm 1 -> s2 <> IntImm 1 -> s1 <> Any -> s2 <> Any ->
  broadcast_dim CanonicalSimplify t1 t2 s1 s2 w
  = (Raise (incompatible_broadcast t1 t2), w).
Proof.
  intros He H1 H2 Ha1 Ha2. unfold broadcast_dim.
  rewrite He, !EqualConstInt_decide, !bool_decide_eq_false_2 by assumption.
  destruct s1, s2; simpl; try congruence; reflexivity.
Qed.

Lemma broadcast_dim_wildcard (s1 s2 : IndexExpr) (w : World) :
  EqualCheck CanonicalSimplify s1 s2 = false ->
  s1 <> IntImm 1 -> s2 <> IntImm 1 -> s1 = Any \/ s2 = Any ->
  let other := if same_as_Any s1 then s2 else s1 in
  broadcast_dim CanonicalSimplify t1 t2 s1 s2 w
  = (Ok other,
     mkWorld (assigned w) (warnings w ++ [any_warning other t1 t2])).
Proof.
  intros He H1 H2 Hany. unfold broadcast_dim.
  rewrite He, !EqualConstInt_decide, !bool_decide_eq_false_2 by assumption.
  destruct Hany as [->| ->]; simpl; [reflexivity|].
  destruct (same_as_Any s1); reflexivity.
Qed.

(** ** The walk: what it keeps, where it stops *)

Lemma walk_world (r1 r2 : list IndexExpr) (w : World) :
  exists o w', walk CanonicalSimplify t1 t2 r1 r2 w = (o, w') /\
               assigned w' = assigned w /\
               exists ms, warnings w' = warnings w ++ ms.
Proof.
  revert r2 w. induction r1 as [|s1 r1 IH]; intros [|s2 r2] w;
    try (eexists _, w; repeat split; exists []; symmetry; apply app_nil_r).
  simpl walk. rewrite bind_run.
  destruct (broadcast_dim_outcome s1 s2 w) as [(d & w1 & -> & Ha & ms & Hw)| ->].
  - rewrite bind_run. destruct (IH r2 w1) as (o & w2 & -> & Ha2 & ms2 & Hw2).
    destruct o as [ds|e]; eexists _, w2; (split; [reflexivity|]);
      (split; [congruence|]); exists (ms ++ ms2);
      rewrite Hw2, Hw, app_assoc; reflexivity.
  - eexists _, w. repeat split. exists []. symmetry. apply app_nil_r.
Qed.

Lemma walk_raises (r1 r2 : list IndexExpr) (w w' : World) (e : Fatal) :
  walk CanonicalSimplify t1 t2 r1 r2 w = (Raise e, w') ->
  e = incompatible_broadcast t1 t2.
Proof.
  revert r2 w. induction r1 as [|s1 r1 IH]; intros [|s2 r2] w;
    try discriminate.
  simpl walk. rewrite bind_run.
  destruct (broadcast_dim_outcome s1 s2 w) as [(d & w1 & -> & _)| ->].
  - rewrite bind_run.
    destruct (walk _ t1 t2 r1 r2 w1) as [[ds|e'] w2] eqn:E; [discriminate|].
    intros [= <- <-]. eapply IH, E.
  - intros [= <- <-]. reflexivity.
Qed.

(** The walk stops with the incompatibility error as soon as some aligned
    pair is incompatible, wherever the pair is. *)
Lemma walk_incompatible (k : nat) (r1 r2 : list IndexExpr) (s1 s2 : IndexExpr)
    (w : World) :
  r1 !! k = Some s1 -> r2 !! k = Some s2 ->
  EqualCheck CanonicalSimplify s1 s2 = false ->
  s1 <> IntImm 1 -> s2 <> IntImm 1 -> s1 <> Any -> s2 <> Any ->
  exists w', walk CanonicalSimplify t1 t2 r1 r2 w
             = (Raise (incompatible_broadcast t1 t2), w').
Proof.
  intros Hk1 Hk2 He H1 H2 Ha1 Ha2. revert r1 r2 w Hk1 Hk2.
  induction k as [|k IH]; intros [|x r1] [|y r2] w Hk1 Hk2;
    try discriminate; simpl in Hk1, Hk2; simpl walk; rewrite bind_run.
  - injection Hk1 as ->. injection Hk2 as ->.
    rewrite broadcast_dim_incompatible by assumption. eauto.
  - destruct (broadcast_dim_outcome x y w) as [(d & w1 & -> & _)| ->]; [|eauto].
    rewrite bind_run. destruct (IH r1 r2 w1 Hk1 Hk2) as [w' ->]. eauto.
Qed.

(** In a walk that ends well, each aligned pair was resolved on its own, in
    a world whose warnings are kept to the end. *)
Lemma walk_lookup (k : nat) (r1 r2 ds : list IndexExpr) (s1 s2 : IndexExpr)
    (w w' : World) :
  walk CanonicalSimplify t1 t2 r1 r2 w = (Ok ds, w') ->
  r1 !! k = Some s1 -> r2 !! k = Some s2 ->
  exists d wa wb ms,
    broadcast_dim CanonicalSimplify t1 t2 s1 s2 wa = (Ok d, wb) /\
    ds !! k = Some d /\
    warnings w' = warnings wb ++ ms.
Proof.
  revert r1 r2 ds w. induction k as [|k IH];
    intros [|x r1] [|y r2] ds w Hwalk Hk1 Hk2;
    try discriminate; simpl in Hk1, Hk2; simpl walk in Hwalk;
    rewrite bind_run in Hwalk;
    destruct (broadcast_dim _ t1 t2 x y w) as [[d|e] w1] eqn:Ed;
    try discriminate; rewrite bind_run in Hwalk;
    destruct (walk _ t1 t2 r1 r2 w1) as [[ds'|e] w2] eqn:Ew;
    try discriminate; injection Hwalk as <- <-.
  - injection Hk1 as ->. injection Hk2 as ->.
    destruct (walk_world r1 r2 w1) as (o & w3 & Hw3 & _ & ms & Hms).
    rewrite Ew in Hw3. injection Hw3 as <- <-.
    exists d, w, w1, ms. repeat split; assumption.
  - destruct (IH r1 r2 ds' w1 Ew Hk1 Hk2) as (d' & wa & wb & ms & Hd & Hl & Hms).
    exists d', wa, wb, ms. repeat split; assumption.
Qed.

End BroadcastDim.

(** ** The specification's rule against the walk *)

Section BroadcastSpec.

Variable CanonicalSimplify : IndexExpr -> IndexExpr.
Variables t1 t2 : TensorTypeNode.

Lemma broadcast_dim_concrete (s1 s2 : IndexExpr) (w : World) :
  concrete_dim s1 -> concrete_dim s2 ->
  broadcast_dim CanonicalSimplify t1 t2 s1 s2 w
  = match spec_pair CanonicalSimplify s1 s2 with
    | Some d => (Ok d, w)
    | None => (Raise (incompatible_broadcast t1 t2), w)
    end.
Proof.
  intros [v1 ->] [v2 ->]. unfold broadcast_dim, spec_pair.
  destruct (EqualCheck _ _ _); [reflexivity|].
  rewrite !EqualConstInt_decide.
  destruct (decide (IntImm v1 = IntImm 1)) as [E1|E1].
  { rewrite (bool_decide_eq_true_2 _ E1). reflexivity. }
  rewrite (bool_decide_eq_false_2 _ E1).
  destruct (decide (IntImm v2 = IntImm 1)) as [E2|E2].
  { rewrite (bool_decide_eq_true_2 _ E2). reflexivity. }
  rewrite (bool_decide_eq_false_2 _ E2). reflexivity.
Qed.

Lemma walk_concrete (r1 r2 : list IndexExpr) (w : World) :
  concrete_shape r1 -> concrete_shape r2 ->
  walk CanonicalSimplify t1 t2 r1 r2 w
  = match spec_align CanonicalSimplify r1 r2 with
    | Some ds => (Ok ds, w)
    | None => (Raise (incompatible_broadcast t1 t2), w)
    end.
Proof.
  intros H1. revert r2. induction H1 as [|s1 r1 Hs1 Hr1 IH];
    intros r2 H2; destruct H2 as [|s2 r2 Hs2 Hr2]; try reflexivity.
  simpl walk. simpl spec_align. rewrite bind_run.
  rewrite broadcast_dim_concrete by assumption.
  destruct (spec_pair _ s1 s2) as [d|]; [|reflexivity].
  rewrite bind_run, IH by assumption.
  destruct (spec_align _ r1 r2); reflexivity.
Qed.

Lemma spec_align_lookup (r1 r2 ds : list IndexExpr) :
  spec_align CanonicalSimplify r1 r2 = Some ds ->
  length ds = length r1 `max` length r2 /\
  (forall k s1 s2,
      r1 !! k = Some s1 -> r2 !! k = Some s2 ->
      spec_pair CanonicalSimplify s1 s2 = ds !! k) /\
  (forall k,
      length r1 `min` length r2 <= k ->
      ds !! k = (if decide (length r2 < length r1) then r1 else r2) !! k).
Proof.
  revert r2 ds. induction r1 as [|x r1 IH]; intros [|y r2] ds; simpl.
  - intros [= <-]. repeat split; try reflexivity; intros; discriminate.
  - intros [= <-]. repeat split; try reflexivity; intros; discriminate.
  - intros [= <-]. repeat split; try reflexivity; intros; discriminate.
  - destruct (spec_pair _ x y) as [d|] eqn:Ed; [|discriminate].
    destruct (spec_align _ r1 r2) as [ds'|] eqn:Ea; [|discriminate].
    intros [= <-]. destruct (IH r2 ds' Ea) as (Hlen & Hpair & Hlead).
    split; [simpl; lia|]. split.
    + intros [|k] s1 s2; simpl.
      * intros [= <-] [= <-]. exact Ed.
      * apply Hpair.
    + intros [|k] Hk; [lia|]. simpl. rewrite Hlead by lia.
      destruct (decide (length r2 < length r1)),
               (decide (S (length r2) < S (length r1)));
        try reflexivity; lia.
Qed.

End BroadcastSpec.

(** C1: on tensor types with concrete shapes [ConcreteBroadcast] computes the
    specification's broadcast: the shapes are aligned at their last
    dimension; going from the right, the [k]-th pair [(s1, s2)] gives [s1]
    if [EqualCheck] holds, else [s2] if [s1] is the literal 1, else [s1] if
    [s2] is the literal 1; past the shorter shape the dimensions of the
    longer one are kept; the result is written left to right, has the
    requested dtype and leaves the reporter and the log untouched.  When some
    pair has no dimension the incompatibility error is raised.  In
    particular (8, 1, 6, 1) and (7, 1, 5) give (8, 7, 6, 5), (5, 4) and (4)
    give (5, 4), (3) and () give (3). *)
Theorem ConcreteBroadcast_concrete (CanonicalSimplify : IndexExpr -> IndexExpr) :
  (forall t1 t2 output_dtype w,
      concrete_shape (shape t1) -> concrete_shape (shape t2) ->
      ConcreteBroadcast CanonicalSimplify t1 t2 output_dtype w
      = match spec_broadcast CanonicalSimplify (shape t1) (shape t2) with
        | Some oshape => (Ok (TensorType (mkTensorType oshape output_dtype)), w)
        | None => (Raise (incompatible_broadcast t1 t2), w)
        end) /\
  (forall sh1 sh2 oshape,
      spec_broadcast CanonicalSimplify sh1 sh2 = Some oshape ->
      length oshape = length sh1 `max` length sh2 /\
      (forall k s1 s2,
          reverse sh1 !! k = Some s1 -> reverse sh2 !! k = Some s2 ->
          reverse oshape !! k
          = (if EqualCheck CanonicalSimplify s1 s2 then Some s1
             else if decide (s1 = IntImm 1) then Some s2
             else if decide (s2 = IntImm 1) then Some s1
             else None)) /\
      (forall k,
          length sh1 `min` length sh2 <= k ->
          reverse oshape !! k
          = reverse (if decide (length sh2 < length sh1) then sh1 else sh2) !! k)) /\
  (forall d1 d2 output_dtype w,
      ConcreteBroadcast CanonicalSimplify
        (mkTensorType [IntImm 8; IntImm 1; IntImm 6; IntImm 1] d1)
        (mkTensorType [IntImm 7; IntImm 1; IntImm 5] d2) output_dtype w
      = (Ok (TensorType (mkTensorType [IntImm 8; IntImm 7; IntImm 6; IntImm 5]
                                      output_dtype)), w) /\
      ConcreteBroadcast CanonicalSimplify
        (mkTensorType [IntImm 5; IntImm 4] d1)
        (mkTensorType [IntImm 4] d2) output_dtype w
      = (Ok (TensorType (mkTensorType [IntImm 5; IntImm 4] output_dtype)), w) /\
      ConcreteBroadcast CanonicalSimplify
        (mkTensorType [IntImm 3] d1)
        (mkTensorType [] d2) output_dtype w
      = (Ok (TensorType (mkTensorType [IntImm 3] output_dtype)), w)).
Proof.
  split; [|split].
  - intros t1 t2 dt w H1 H2. rewrite ConcreteBroadcast_walk, bind_run.
    rewrite walk_concrete by (apply Forall_reverse; assumption).
    unfold spec_broadcast.
    destruct (spec_align _ _ _); reflexivity.
  - intros sh1 sh2 oshape. unfold spec_broadcast.
    destruct (spec_align _ _ _) as [ds|] eqn:E; [|discriminate].
    intros [= <-]. rewrite reverse_involutive, length_reverse.
    apply spec_align_lookup in E as (Hlen & Hpair & Hlead).
    rewrite !length_reverse in *. split; [exact Hlen|]. split.
    + intros k s1 s2 Hk1 Hk2. rewrite <- (Hpair k s1 s2 Hk1 Hk2). reflexivity.
    + intros k Hk. rewrite (Hlead k Hk).
      destruct (decide (length sh2 < length sh1)); reflexivity.
  - intros d1 d2 dt w. repeat split; reflexivity.
Qed.

Lemma ConcreteBroadcast_concrete_witness :
  let t1 := mkTensorType [IntImm 2; IntImm 1; IntImm 3] (Float_ 32) in
  let t2 := mkTensorType [IntImm 5; IntImm 3] (Float_ 32) in
  ConcreteBroadcast linear_simplify t1 t2 (Float_ 32) (mkWorld [] [])
  = (Ok (TensorType (mkTensorType [IntImm 2; IntImm 5; IntImm 3] (Float_ 32))),
     mkWorld [] []).
Proof.
  intros t1 t2.
  destruct (ConcreteBroadcast_concrete linear_simplify) as [Hrun _].
  rewrite (Hrun t1 t2 (Float_ 32) (mkWorld [] [])).
  - reflexivity.
  - repeat constructor; eexists; reflexivity.
  - repeat constructor; eexists; reflexivity.
Defined.

(** C2: an aligned pair that [EqualCheck] does not prove equal, with neither
    side the literal 1 and one side the [Any] wildcard, resolves to the other
    side; the only effect is one warning added to the log, no error is
    raised.  So when [ConcreteBroadcast] returns, the output dimension at the
    position of such a pair is the other side and the warning is in the
    log. *)
Theorem broadcast_wildcard_pair (CanonicalSimplify : IndexExpr -> IndexExpr)
    (t1 t2 : TensorTypeNode) (s1 s2 : IndexExpr) :
  EqualCheck CanonicalSimplify s1 s2 = false ->
  s1 <> IntImm 1 -> s2 <> IntImm 1 ->
  s1 = Any \/ s2 = Any ->
  exists other,
    (s1 = Any /\ other = s2 \/ s1 <> Any /\ s2 = Any /\ other = s1) /\
    (forall w,
        broadcast_dim CanonicalSimplify t1 t2 s1 s2 w
        = (Ok other,
           mkWorld (assigned w) (warnings w ++ [any_warning other t1 t2]))) /\
    (forall k output_dtype w out w',
        reverse (shape t1) !! k = Some s1 ->
        reverse (shape t2) !! k = Some s2 ->
        ConcreteBroadcast CanonicalSimplify t1 t2 output_dtype w = (Ok out, w') ->
        exists oshape,
          out = TensorType (mkTensorType oshape output_dtype) /\
          reverse oshape !! k = Some other /\
          any_warning other t1 t2 ∈ warnings w').
Proof.
  intros He H1 H2 Hany.
  pose proof (fun w => broadcast_dim_wildcard CanonicalSimplify t1 t2 s1 s2 w
                         He H1 H2 Hany) as Hdim.
  simpl in Hdim. exists (if same_as_Any s1 then s2 else s1).
  split; [|split].
  - destruct Hany as [->| ->]; [left; split; reflexivity|].
    destruct s1; simpl; auto; right; repeat split; discriminate.
  - exact Hdim.
  - intros k dt w out w' Hk1 Hk2. rewrite ConcreteBroadcast_walk, bind_run.
    destruct (walk _ t1 t2 _ _ w) as [[ds|e] w1] eqn:Ew; [|discriminate].
    intros [= <- <-]. exists (reverse ds). split; [reflexivity|].
    rewrite reverse_involutive.
    destruct (walk_lookup _ _ _ k _ _ _ _ _ _ _ Ew Hk1 Hk2)
      as (d & wa & wb & ms & Hd & Hl & Hms).
    rewrite Hdim in Hd. injection Hd as <- <-. split; [exact Hl|].
    rewrite Hms. simpl. rewrite !elem_of_app, list_elem_of_singleton. auto.
Qed.

Lemma broadcast_wildcard_pair_witness :
  let t1 := mkTensorType [Any; IntImm 4] (Float_ 32) in
  let t2 := mkTensorType [IntImm 5; IntImm 4] (Float_ 32) in
  ConcreteBroadcast linear_simplify t1 t2 (Float_ 32) (mkWorld [] [])
  = (Ok (TensorType (mkTensorType [IntImm 5; IntImm 4] (Float_ 32))),
     mkWorld [] [any_warning (IntImm 5) t1 t2]) /\
  exists other,
    other = IntImm 5 /\
    forall w,
      broadcast_dim linear_simplify t1 t2 Any (IntImm 5) w
      = (Ok other,
         mkWorld (assigned w) (warnings w ++ [any_warning other t1 t2])).
Proof.
  intros t1 t2. split; [reflexivity|].
  destruct (broadcast_wildcard_pair linear_simplify t1 t2 Any (IntImm 5))
    as (other & Hother & Hdim & _).
  - reflexivity.
  - discriminate.
  - discriminate.
  - left; reflexivity.
  - exists other. split; [|exact Hdim].
    destruct Hother as [[_ ->]|[Hne _]]; [reflexivity|].
    exfalso; apply Hne; reflexivity.
Defined.

(** C5: when some aligned pair is not proved equal by [EqualCheck] and has
    neither side the literal 1 nor the [Any] wildcard, [ConcreteBroadcast]
    raises the fatal incompatibility error, whose message shows both input
    types with their shapes; no output type is produced and nothing is
    assigned.  On concrete shapes the log is untouched as well.  In
    particular (3, 4) against (5, 4) raises the error. *)
Theorem ConcreteBroadcast_incompatible (CanonicalSimplify : IndexExpr -> IndexExpr)
    (t1 t2 : TensorTypeNode) (output_dtype : DataType) (w : World)
    (k : nat) (s1 s2 : IndexExpr) :
  reverse (shape t1) !! k = Some s1 ->
  reverse (shape t2) !! k = Some s2 ->
  EqualCheck CanonicalSimplify s1 s2 = false ->
  s1 <> IntImm 1 -> s2 <> IntImm 1 -> s1 <> Any -> s2 <> Any ->
  exists w',
    ConcreteBroadcast CanonicalSimplify t1 t2 output_dtype w
    = (Raise (RelayError [Text "Incompatible broadcast type "; ShowType t1;
                          Text " and "; ShowType t2]), w') /\
    assigned w' = assigned w /\
    (concrete_shape (shape t1) -> concrete_shape (shape t2) -> w' = w).
Proof.
  intros Hk1 Hk2 He H1 H2 Ha1 Ha2.
  destruct (walk_incompatible CanonicalSimplify t1 t2 k _ _ s1 s2 w
              Hk1 Hk2 He H1 H2 Ha1 Ha2) as [w' Hw].
  exists w'. rewrite ConcreteBroadcast_walk, bind_run, Hw.
  split; [reflexivity|]. split.
  - destruct (walk_world CanonicalSimplify t1 t2 (reverse (shape t1))
                (reverse (shape t2)) w) as (o & w'' & Hw'' & Ha & _).
    rewrite Hw in Hw''. injection Hw'' as <- <-. exact Ha.
  - intros Hc1 Hc2.
    rewrite walk_concrete in Hw by (apply Forall_reverse; assumption).
    destruct (spec_align _ _ _); congruence.
Qed.

Lemma ConcreteBroadcast_incompatible_witness :
  let t1 := mkTensorType [IntImm 3; IntImm 4] (Float_ 32) in
  let t2 := mkTensorType [IntImm 5; IntImm 4] (Float_ 32) in
  exists w',
    ConcreteBroadcast linear_simplify t1 t2 (Float_ 32) (mkWorld [] [])
    = (Raise (RelayError [Text "Incompatible broadcast type "; ShowType t1;
                          Text " and "; ShowType t2]), w') /\
    assigned w' = [] /\
    (concrete_shape (shape t1) -> concrete_shape (shape t2) -> w' = mkWorld [] []).
Proof.
  intros t1 t2.
  apply (ConcreteBroadcast_incompatible linear_simplify t1 t2 (Float_ 32)
           (mkWorld [] []) 1 (IntImm 3) (IntImm 5)).
  - reflexivity.
  - reflexivity.
  - reflexivity.
  - discriminate.
  - discriminate.
  - discriminate.
  - discriminate.
Defined.

(** ** The output of the two broadcast relations *)

Lemma ConcreteBroadcast_Ok (CanonicalSimplify : IndexExpr -> IndexExpr)
    (t1 t2 : TensorTypeNode) (output_dtype : DataType) (w w' : World) (out : Ty) :
  ConcreteBroadcast CanonicalSimplify t1 t2 output_dtype w = (Ok out, w') ->
  exists oshape,
    out = TensorType (mkTensorType oshape output_dtype) /\
    assigned w' = assigned w.
Proof.
  rewrite ConcreteBroadcast_walk, bind_run.
  destruct (walk_world CanonicalSimplify t1 t2 (reverse (shape t1))
              (reverse (shape t2)) w) as (o & w1 & -> & Ha & _).
  destruct o as [ds|e]; [|discriminate].
  intros [= <- <-]. eauto.
Qed.

(** No call reads a shape outside its bounds. *)
Lemma ConcreteBroadcast_in_bounds (CanonicalSimplify : IndexExpr -> IndexExpr)
    (t1 t2 : TensorTypeNode) (output_dtype : DataType) (w w' : World) (e : Fatal) :
  ConcreteBroadcast CanonicalSimplify t1 t2 output_dtype w = (Raise e, w') ->
  e = incompatible_broadcast t1 t2.
Proof.
  rewrite ConcreteBroadcast_walk, bind_run.
  destruct (walk _ t1 t2 _ _ w) as [[ds|e'] w1] eqn:E; [discriminate|].
  intros [= <- <-]. eapply walk_raises, E.
Qed.

Lemma Broadcast_assigns (CanonicalSimplify : IndexExpr -> IndexExpr)
    (t0 t1 : TensorTypeNode) (ty2 : Ty) (output_dtype : DataType)
    (w w' : World) (b : bool) :
  (CHECK_EQ (dtype t0) (dtype t1) "t0->dtype == t1->dtype" ;;;
   ty2' <- at_index [TensorType t0; TensorType t1; ty2] 2 ;;
   out <- ConcreteBroadcast CanonicalSimplify t0 t1 output_dtype ;;
   Assign ty2' out ;;;
   ret true) w = (Ok b, w') ->
  b = true /\
  exists oshape,
    assigned w' = assigned w ++ [(ty2, TensorType (mkTensorType oshape output_dtype))].
Proof.
  unfold bind, CHECK_EQ, Assign, ret.
  destruct (decide (dtype t0 = dtype t1)) as [_|_]; [|discriminate]. simpl.
  destruct (ConcreteBroadcast _ t0 t1 output_dtype w) as [[out|e] w1] eqn:E;
    [|discriminate].
  apply ConcreteBroadcast_Ok in E as (oshape & -> & Ha).
  intros [= <- <-]. split; [reflexivity|]. exists oshape. simpl. rewrite Ha.
  reflexivity.
Qed.

(** C7: on two tensor types with the same dtype, whenever the relation
    returns it returns [true] and has assigned to the output slot one tensor
    type: with the boolean dtype for [BroadcastCompRel], whatever the dtype of
    the inputs, and with the dtype of the inputs for [BroadcastRel]. *)
Theorem Broadcast_output_dtype (CanonicalSimplify : IndexExpr -> IndexExpr)
    {Attrs : Type} (t0 t1 : TensorTypeNode) (ty2 : Ty) (num_inputs : Z)
    (attrs : Attrs) (w : World) :
  dtype t0 = dtype t1 ->
  (forall b w',
      BroadcastCompRel CanonicalSimplify [TensorType t0; TensorType t1; ty2]
                       num_inputs attrs w = (Ok b, w') ->
      b = true /\
      exists oshape,
        assigned w' = assigned w ++ [(ty2, TensorType (mkTensorType oshape Bool_))]) /\
  (forall b w',
      BroadcastRel CanonicalSimplify [TensorType t0; TensorType t1; ty2]
                   num_inputs attrs w = (Ok b, w') ->
      b = true /\
      exists oshape,
        assigned w' = assigned w ++
                      [(ty2, TensorType (mkTensorType oshape (dtype t0)))] /\
        dtype t0 = dtype t1).
Proof.
  intros Hdt. split; intros b w'.
  - unfold BroadcastCompRel. rewrite bind_run. simpl.
    rewrite !bind_run. simpl. apply Broadcast_assigns.
  - unfold BroadcastRel. rewrite bind_run. simpl.
    rewrite !bind_run. simpl. intros H.
    apply Broadcast_assigns in H as (-> & oshape & H). eauto.
Qed.

Lemma Broadcast_output_dtype_witness :
  let t0 := mkTensorType [IntImm 3; IntImm 1] (Float_ 32) in
  let t1 := mkTensorType [IntImm 4] (Float_ 32) in
  let w := mkWorld [] [] in
  BroadcastCompRel linear_simplify [TensorType t0; TensorType t1; IncompleteType 0]
                   2 tt w
  = (Ok true,
     mkWorld [(IncompleteType 0,
               TensorType (mkTensorType [IntImm 3; IntImm 4] Bool_))] []) /\
  BroadcastRel linear_simplify [TensorType t0; TensorType t1; IncompleteType 0]
               2 tt w
  = (Ok true,
     mkWorld [(IncompleteType 0,
               TensorType (mkTensorType [IntImm 3; IntImm 4] (Float_ 32)))] []) /\
  (true = true /\
   exists oshape,
     assigned (mkWorld [(IncompleteType 0,
                         TensorType (mkTensorType [IntImm 3; IntImm 4] Bool_))] [])
     = assigned w ++ [(IncompleteType 0, TensorType (mkTensorType oshape Bool_))]).
Proof.
  intros t0 t1 w. split; [reflexivity|]. split; [reflexivity|].
  destruct (Broadcast_output_dtype linear_simplify t0 t1 (IncompleteType 0) 2 tt w)
    as [Hcomp _]; [reflexivity|].
  apply Hcomp. reflexivity.
Defined.

(** ** Operator strategies *)

Section StrategyFacts.

Context {FTVMCompute FTVMSchedule : Type}.

Implicit Types (st : @Store FTVMCompute FTVMSchedule).
Implicit Types (h : gmap nat (@OpSpecializationNode FTVMCompute FTVMSchedule)).
Implicit Types (fcompute f : FTVMCompute) (fschedule s : FTVMSchedule).
Implicit Types (plevel p : Z) (curr_cond c : SpecializedCondition).
Implicit Types (e self : OpSpecialization) (specs : list OpSpecialization).

Lemma find_specialization_Some h (specs : list OpSpecialization)
    (curr_cond : SpecializedCondition) (e : OpSpecialization) :
  find_specialization h specs curr_cond = Some e ->
  e ∈ specs /\ exists node, h !! e = Some node /\ condition node = curr_cond.
Proof.
  induction specs as [|e' specs IH]; simpl; [discriminate|].
  destruct (h !! e') as [node|] eqn:E.
  - destruct (decide (condition node = curr_cond)) as [Hc|Hc].
    + intros [= <-]. split; [left|eauto].
    + intros H. destruct (IH H) as [Hin Hn]. split; [right; exact Hin|exact Hn].
  - intros H. destruct (IH H) as [Hin Hn]. split; [right; exact Hin|exact Hn].
Qed.

Lemma find_specialization_None h (specs : list OpSpecialization)
    (curr_cond : SpecializedCondition) :
  find_specialization h specs curr_cond = None ->
  curr_cond ∉ condition <$> omap (fun e => h !! e) specs.
Proof.
  induction specs as [|e' specs IH]; simpl; [intros _; apply not_elem_of_nil|].
  destruct (h !! e') as [node|] eqn:E; [|exact IH].
  destruct (decide (condition node = curr_cond)) as [Hc|Hc]; [discriminate|].
  intros H. rewrite fmap_cons. apply not_elem_of_cons. split; [congruence|].
  apply IH, H.
Qed.

Lemma AddImplement_nodes h (self : OpSpecialization)
    (fcompute : FTVMCompute) (fschedule : FTVMSchedule) (plevel : Z)
    (specs : list OpSpecialization) :
  omap (fun e => OpSpecialization_AddImplement self fcompute fschedule plevel h !! e)
       specs
  = (fun e_node : OpSpecialization * OpSpecializationNode =>
       if decide (self = e_node.1)
       then mkOpSpecializationNode
              (implements e_node.2 ++ [mkOpImplementNode fcompute fschedule plevel])
              (condition e_node.2)
       else e_node.2)
    <$> omap (fun e => pair e <$> h !! e) specs.
Proof.
  unfold OpSpecialization_AddImplement.
  induction specs as [|e specs IH]; [reflexivity|].
  csimpl. rewrite lookup_alter, IH.
  destruct (decide (self = e)) as [->|Hne]; destruct (h !! e) as [node|];
    csimpl; rewrite ?decide_True, ?decide_False by done; reflexivity.
Qed.

Lemma AddImplement_conditions h (self : OpSpecialization)
    (fcompute : FTVMCompute) (fschedule : FTVMSchedule) (plevel : Z)
    (specs : list OpSpecialization) :
  condition <$>
    omap (fun e => OpSpecialization_AddImplement self fcompute fschedule plevel h !! e)
         specs
  = condition <$> omap (fun e => h !! e) specs.
Proof.
  unfold OpSpecialization_AddImplement.
  induction specs as [|e specs IH]; [reflexivity|].
  csimpl. rewrite lookup_alter.
  destruct (decide (self = e)) as [->|Hne]; destruct (h !! e) as [node|];
    csimpl; rewrite ?IH; reflexivity.
Qed.

Lemma omap_insert_fresh h (n : nat) (node : @OpSpecializationNode FTVMCompute FTVMSchedule)
    (specs : list OpSpecialization) :
  h !! n = None ->
  (forall e, e ∈ specs -> is_Some (h !! e)) ->
  omap (fun e => <[n := node]> h !! e) specs = omap (fun e => h !! e) specs.
Proof.
  intros Hn. induction specs as [|e specs IH]; intros Hv; [reflexivity|].
  csimpl. rewrite lookup_insert_ne.
  - rewrite IH; [reflexivity|]. intros e' He'. apply Hv. right. exact He'.
  - intros ->. destruct (Hv e ltac:(left)) as [x Hx]. congruence.
Qed.

Lemma fresh_ref h : h !! fresh (dom h) = None.
Proof. apply not_elem_of_dom, is_fresh. Qed.

Lemma AddImplement_new_store (curr_cond : SpecializedCondition)
    (fcompute : FTVMCompute) (fschedule : FTVMSchedule) (plevel : Z) st :
  find_specialization (heap st) (specializations (this st)) curr_cond = None ->
  OpStrategy_AddImplement curr_cond fcompute fschedule plevel st
  = mkStore (<[fresh (dom (heap st)) :=
                 mkOpSpecializationNode
                   [mkOpImplementNode fcompute fschedule plevel] curr_cond]>
               (heap st))
            (mkOpStrategyNode
               (specializations (this st) ++ [fresh (dom (heap st))])).
Proof.
  intros Hnone. unfold OpStrategy_AddImplement. rewrite Hnone.
  unfold OpSpecialization_AddImplement. rewrite alter_insert_eq. reflexivity.
Qed.

Lemma AddImplement_found_store (curr_cond : SpecializedCondition)
    (fcompute : FTVMCompute) (fschedule : FTVMSchedule) (plevel : Z)
    st (e : OpSpecialization) :
  find_specialization (heap st) (specializations (this st)) curr_cond = Some e ->
  OpStrategy_AddImplement curr_cond fcompute fschedule plevel st
  = mkStore (OpSpecialization_AddImplement e fcompute fschedule plevel (heap st))
            (this st).
Proof. intros Hsome. unfold OpStrategy_AddImplement. rewrite Hsome. reflexivity. Qed.

(** A call under a condition that no specialization has adds one
    specialization, holding the new implementation alone. *)
Lemma AddImplement_new (curr_cond : SpecializedCondition)
    (fcompute : FTVMCompute) (fschedule : FTVMSchedule) (plevel : Z) st :
  valid_refs st ->
  find_specialization (heap st) (specializations (this st)) curr_cond = None ->
  specialization_nodes (OpStrategy_AddImplement curr_cond fcompute fschedule plevel st)
  = specialization_nodes st ++
    [mkOpSpecializationNode [mkOpImplementNode fcompute fschedule plevel] curr_cond].
Proof.
  intros Hv Hnone. unfold OpStrategy_AddImplement, specialization_nodes.
  rewrite Hnone. simpl. unfold OpSpecialization_AddImplement.
  rewrite alter_insert_eq, omap_app. simpl.
  rewrite lookup_insert_eq. simpl.
  rewrite omap_insert_fresh; [reflexivity|apply fresh_ref|exact Hv].
Qed.

(** A call under the condition of an existing specialization leaves the
    conditions as they are. *)
Lemma AddImplement_found (curr_cond : SpecializedCondition)
    (fcompute : FTVMCompute) (fschedule : FTVMSchedule) (plevel : Z)
    st (e : OpSpecialization) :
  find_specialization (heap st) (specializations (this st)) curr_cond = Some e ->
  specializations (this (OpStrategy_AddImplement curr_cond fcompute fschedule plevel st))
  = specializations (this st) /\
  conditions (OpStrategy_AddImplement curr_cond fcompute fschedule plevel st)
  = conditions st.
Proof.
  intros Hsome. unfold OpStrategy_AddImplement, conditions, specialization_nodes.
  rewrite Hsome. simpl. split; [reflexivity|]. apply AddImplement_conditions.
Qed.

Lemma AddImplement_valid_refs (curr_cond : SpecializedCondition)
    (fcompute : FTVMCompute) (fschedule : FTVMSchedule) (plevel : Z) st :
  valid_refs st ->
  valid_refs (OpStrategy_AddImplement curr_cond fcompute fschedule plevel st).
Proof.
  intros Hv e. unfold OpStrategy_AddImplement, OpSpecialization_AddImplement.
  destruct (find_specialization _ _ _) as [e'|]; simpl.
  - intros He. rewrite lookup_alter.
    destruct (decide (e' = e)) as [->|Hne]; destruct (Hv e He) as [x ->];
      simpl; eauto.
  - rewrite alter_insert_eq. intros [He| ->%list_elem_of_singleton]%elem_of_app.
    + destruct (Hv e He) as [x Hx].
      rewrite lookup_insert_ne; [eauto|].
      intros <-. rewrite fresh_ref in Hx. discriminate.
    + rewrite lookup_insert_eq. eauto.
Qed.

Lemma AddImplement_NoDup (curr_cond : SpecializedCondition)
    (fcompute : FTVMCompute) (fschedule : FTVMSchedule) (plevel : Z) st :
  valid_refs st -> NoDup (conditions st) ->
  NoDup (conditions (OpStrategy_AddImplement curr_cond fcompute fschedule plevel st)).
Proof.
  intros Hv Hnd.
  destruct (find_specialization (heap st) (specializations (this st)) curr_cond)
    as [e|] eqn:E.
  - destruct (AddImplement_found curr_cond fcompute fschedule plevel st e E)
      as [_ ->]. exact Hnd.
  - unfold conditions. rewrite AddImplement_new by assumption.
    rewrite fmap_app. apply NoDup_app. split; [exact Hnd|]. split.
    + intros c Hc [= ->]%list_elem_of_singleton.
      apply (find_specialization_None _ _ _ E), Hc.
    + apply NoDup_singleton.
Qed.

Lemma register_all_invariant (rs : list Registration) st :
  valid_refs st -> NoDup (conditions st) ->
  valid_refs (register_all rs st) /\ NoDup (conditions (register_all rs st)).
Proof.
  revert st. induction rs as [|r rs IH]; intros st Hv Hnd; [split; assumption|].
  simpl. apply IH.
  - apply AddImplement_valid_refs, Hv.
  - apply AddImplement_NoDup; assumption.
Qed.

Lemma register_same_condition h (c : SpecializedCondition)
    (f1 f2 : FTVMCompute) (s1 s2 : FTVMSchedule) (p1 p2 : Z) :
  register_all [mkRegistration c f1 s1 p1; mkRegistration c f2 s2 p2]
               (make_OpStrategy h)
  = mkStore (<[fresh (dom h) :=
                 mkOpSpecializationNode
                   [mkOpImplementNode f1 s1 p1; mkOpImplementNode f2 s2 p2] c]> h)
            (mkOpStrategyNode [fresh (dom h)]).
Proof.
  unfold register_all, register. simpl.
  rewrite (AddImplement_new_store c f1 s1 p1 (make_OpStrategy h)) by reflexivity.
  simpl. rewrite (AddImplement_found_store c f2 s2 p2 _ (fresh (dom h))).
  - unfold OpSpecialization_AddImplement. simpl.
    rewrite alter_insert_eq. reflexivity.
  - simpl. rewrite lookup_insert_eq. simpl.
    rewrite decide_True by reflexivity. reflexivity.
Qed.

Lemma register_distinct_conditions h (c1 c2 : SpecializedCondition)
    (f1 f2 : FTVMCompute) (s1 s2 : FTVMSchedule) (p1 p2 : Z) :
  c1 <> c2 ->
  let node1 := mkOpSpecializationNode [mkOpImplementNode f1 s1 p1] c1 in
  let node2 := mkOpSpecializationNode [mkOpImplementNode f2 s2 p2] c2 in
  let h1 := <[fresh (dom h) := node1]> h in
  register_all [mkRegistration c1 f1 s1 p1; mkRegistration c2 f2 s2 p2]
               (make_OpStrategy h)
  = mkStore (<[fresh (dom h1) := node2]> h1)
            (mkOpStrategyNode [fresh (dom h); fresh (dom h1)]).
Proof.
  intros Hne node1 node2 h1. unfold register_all, register. simpl.
  rewrite (AddImplement_new_store c1 f1 s1 p1 (make_OpStrategy h)) by reflexivity.
  simpl. rewrite AddImplement_new_store; [reflexivity|].
  simpl. rewrite lookup_insert_eq. simpl.
  rewrite decide_False by exact Hne. reflexivity.
Qed.

End StrategyFacts.

(** C3: [OpStrategy::AddImplement] finds or creates the specialization of
    the current condition.  On a new strategy, two calls under one condition
    leave one specialization holding the two implementations in call order;
    two calls under distinct conditions leave two specializations, one per
    condition; and after any sequence of calls every reference of the
    strategy points to a node and the conditions of its specializations are
    pairwise distinct. *)
Theorem OpStrategy_AddImplement_find_or_create {FTVMCompute FTVMSchedule : Type}
    (h : gmap nat (@OpSpecializationNode FTVMCompute FTVMSchedule)) :
  (forall c f1 s1 p1 f2 s2 p2,
      let st := register_all [mkRegistration c f1 s1 p1; mkRegistration c f2 s2 p2]
                             (make_OpStrategy h) in
      length (specializations (this st)) = 1 /\
      specialization_nodes st
      = [mkOpSpecializationNode
           [mkOpImplementNode f1 s1 p1; mkOpImplementNode f2 s2 p2] c]) /\
  (forall c1 c2 f1 s1 p1 f2 s2 p2,
      c1 <> c2 ->
      let st := register_all [mkRegistration c1 f1 s1 p1; mkRegistration c2 f2 s2 p2]
                             (make_OpStrategy h) in
      length (specializations (this st)) = 2 /\
      specialization_nodes st
      = [mkOpSpecializationNode [mkOpImplementNode f1 s1 p1] c1;
         mkOpSpecializationNode [mkOpImplementNode f2 s2 p2] c2]) /\
  (forall rs,
      let st := register_all rs (make_OpStrategy h) in
      valid_refs st /\ NoDup (conditions st)).
Proof.
  assert (valid_refs (make_OpStrategy h)) as Hv0.
  { intros e He. simpl in He. inversion He. }
  split; [|split].
  - intros c f1 s1 p1 f2 s2 p2 st. unfold st.
    rewrite register_same_condition. unfold specialization_nodes. simpl.
    rewrite lookup_insert_eq. split; reflexivity.
  - intros c1 c2 f1 s1 p1 f2 s2 p2 Hne st. unfold st.
    rewrite register_distinct_conditions by exact Hne.
    unfold specialization_nodes. simpl.
    rewrite lookup_insert_ne, !lookup_insert_eq; [split; reflexivity|].
    intros Heq. apply (is_fresh (dom (<[fresh (dom h) :=
      mkOpSpecializationNode [mkOpImplementNode f1 s1 p1] c1]> h))).
    rewrite Heq at 1. rewrite dom_insert_L. set_solver.
  - intros rs. apply register_all_invariant; [exact Hv0|]. apply NoDup_nil_2.
Qed.

Lemma OpStrategy_AddImplement_find_or_create_witness :
  let cpu : SpecializedCondition := None in
  let gpu : SpecializedCondition := Some 7 in
  let st := register_all [mkRegistration cpu "compute_a" "schedule_a" 10;
                          mkRegistration gpu "compute_b" "schedule_b" 15]
                         (make_OpStrategy ∅) in
  cpu <> gpu /\
  length (specializations (this st)) = 2 /\
  specialization_nodes st
  = [mkOpSpecializationNode [mkOpImplementNode "compute_a" "schedule_a" 10] cpu;
     mkOpSpecializationNode [mkOpImplementNode "compute_b" "schedule_b" 15] gpu].
Proof.
  intros cpu gpu st. split; [discriminate|].
  destruct (@OpStrategy_AddImplement_find_or_create string string ∅)
    as (_ & Hdistinct & _).
  apply (Hdistinct cpu gpu "compute_a" "schedule_a" 10%Z
                   "compute_b" "schedule_b" 15%Z).
  discriminate.
Defined.

(** * Further properties *)

(** ** [EqualCheck] on literals and under a value-preserving simplifier *)

(** X1: on two integer literals in the 64-bit range [EqualCheck] answers
    [true] exactly when the literals are the same number, whatever the
    simplifier does: the simplifier is never consulted on literals. *)
Theorem EqualCheck_literal_decides (CanonicalSimplify : IndexExpr -> IndexExpr)
    (x y : Z) :
  (- 2 ^ 63 <= x < 2 ^ 63)%Z -> (- 2 ^ 63 <= y < 2 ^ 63)%Z ->
  EqualCheck CanonicalSimplify (IntImm x) (IntImm y) = true <-> x = y.
Proof.
  intros Hx Hy. rewrite EqualCheck_literal, Z.eqb_eq, wrap64_zero_iff.
  change (2 ^ 63)%Z with 9223372036854775808%Z in *.
  change (2 ^ 64)%Z with 18446744073709551616%Z.
  Z.to_euclidean_division_equations. lia.
Qed.

Lemma EqualCheck_literal_decides_witness :
  EqualCheck linear_simplify (IntImm 224) (IntImm 224) = true <-> 224%Z = 224%Z.
Proof.
  apply (EqualCheck_literal_decides linear_simplify 224 224); simpl; lia.
Defined.

(** X2: with a simplifier that keeps the value of an expression,
    [EqualCheck] never equates expressions of different values: when it
    answers [true], the two expressions have the same value modulo 2^64
    under every assignment to their atoms (and plainly the same value unless
    both are literals). *)
Theorem EqualCheck_sound (CanonicalSimplify : IndexExpr -> IndexExpr)
    (a b : IndexExpr) :
  simplifier_sound CanonicalSimplify ->
  EqualCheck CanonicalSimplify a b = true ->
  (forall env, ((eval env a - eval env b) mod 2 ^ 64 = 0)%Z) /\
  (as_const_int a = None \/ as_const_int b = None ->
   forall env, eval env a = eval env b).
Proof.
  intros Hsound Heq.
  destruct (as_const_int (expr_sub a b)) as [d|] eqn:E.
  - apply expr_sub_literal in E as (x & y & -> & -> & ->).
    rewrite EqualCheck_literal in Heq. apply Z.eqb_eq, wrap64_zero_iff in Heq.
    split; [intros env; exact Heq|]. intros [H|H]; discriminate.
  - assert (forall env, eval env a = eval env b) as Hval.
    { unfold EqualCheck in Heq. rewrite E in Heq.
      destruct (as_const_int (CanonicalSimplify _)) as [p|] eqn:Ep; [|discriminate].
      apply Z.eqb_eq in Heq. subst p. apply as_const_int_Some in Ep.
      intros env. pose proof (Hsound (expr_sub a b) env) as Hs.
      rewrite Ep, eval_expr_sub in Hs by exact E. simpl in Hs. lia. }
    split; [|intros _; exact Hval].
    intros env. rewrite Hval, Z.sub_diag. reflexivity.
Qed.

Lemma EqualCheck_sound_witness :
  simplifier_sound linear_simplify /\
  EqualCheck linear_simplify (Add (Var "n") (IntImm 2)) (Add (IntImm 2) (Var "n"))
  = true /\
  forall env, eval env (Add (Var "n") (IntImm 2)) = eval env (Add (IntImm 2) (Var "n")).
Proof.
  split; [exact linear_simplify_sound|]. split; [reflexivity|].
  apply (EqualCheck_sound linear_simplify (Add (Var "n") (IntImm 2))
           (Add (IntImm 2) (Var "n")) linear_simplify_sound eq_refl).
  left; reflexivity.
Defined.

(** ** What [ConcreteBroadcast] does on arbitrary shapes *)

Lemma broadcast_dim_picks (CanonicalSimplify : IndexExpr -> IndexExpr)
    (t1 t2 : TensorTypeNode) (s1 s2 d : IndexExpr) (w w' : World) :
  broadcast_dim CanonicalSimplify t1 t2 s1 s2 w = (Ok d, w') ->
  d = s1 \/ d = s2.
Proof.
  unfold broadcast_dim.
  destruct (EqualCheck _ s1 s2); [intros [= <- _]; auto|].
  destruct (EqualConstInt s1 1); [intros [= <- _]; auto|].
  destruct (EqualConstInt s2 1); [intros [= <- _]; auto|].
  destruct (same_as_Any s1); [intros [= <- _]; auto|].
  destruct (same_as_Any s2); [intros [= <- _]; auto|].
  discriminate.
Qed.

Lemma walk_shape (CanonicalSimplify : IndexExpr -> IndexExpr)
    (t1 t2 : TensorTypeNode) (r1 r2 ds : list IndexExpr) (w w' : World) :
  walk CanonicalSimplify t1 t2 r1 r2 w = (Ok ds, w') ->
  length ds = length r1 `max` length r2 /\
  (forall k s1 s2 d,
      r1 !! k = Some s1 -> r2 !! k = Some s2 -> ds !! k = Some d ->
      d = s1 \/ d = s2) /\
  (forall k,
      length r1 `min` length r2 <= k ->
      ds !! k = (if decide (length r2 < length r1) then r1 else r2) !! k).
Proof.
  revert r2 ds w. induction r1 as [|x r1 IH]; intros [|y r2] ds w.
  - intros [= <- _]. repeat split; try reflexivity; intros; discriminate.
  - intros [= <- _]. repeat split; try reflexivity; intros; discriminate.
  - intros [= <- _]. repeat split; try reflexivity; intros; discriminate.
  - simpl walk. rewrite bind_run.
    destruct (broadcast_dim _ t1 t2 x y w) as [[d|e] w1] eqn:Ed; [|discriminate].
    rewrite bind_run.
    destruct (walk _ t1 t2 r1 r2 w1) as [[ds'|e] w2] eqn:Ew; [|discriminate].
    intros [= <- <-]. destruct (IH r2 ds' w1 Ew) as (Hlen & Hpick & Hlead).
    split; [simpl; lia|]. split.
    + intros [|k] s1 s2 d'; simpl.
      * intros [= <-] [= <-] [= <-]. eapply broadcast_dim_picks, Ed.
      * apply Hpick.
    + intros [|k] Hk; simpl in Hk; [lia|]. simpl. rewrite Hlead by lia.
      destruct (decide (length r2 < length r1)),
               (decide (S (length r2) < S (length r1)));
        try reflexivity; lia.
Qed.

(** X3: for arbitrary shapes (literal, symbolic or wildcard dimensions), when
    [ConcreteBroadcast] returns, the result is a tensor type of the requested
    dtype whose rank is the larger of the two ranks; counted from the right,
    each dimension within the shorter rank is one of the two aligned input
    dimensions, and each dimension beyond it is the dimension of the
    higher-rank input at that place. *)
Theorem ConcreteBroadcast_shape (CanonicalSimplify : IndexExpr -> IndexExpr)
    (t1 t2 : TensorTypeNode) (output_dtype : DataType) (w w' : World) (out : Ty) :
  ConcreteBroadcast CanonicalSimplify t1 t2 output_dtype w = (Ok out, w') ->
  exists oshape,
    out = TensorType (mkTensorType oshape output_dtype) /\
    length oshape = length (shape t1) `max` length (shape t2) /\
    (forall k s1 s2 d,
        reverse (shape t1) !! k = Some s1 ->
        reverse (shape t2) !! k = Some s2 ->
        reverse oshape !! k = Some d ->
        d = s1 \/ d = s2) /\
    (forall k,
        length (shape t1) `min` length (shape t2) <= k ->
        reverse oshape !! k
        = reverse (if decide (length (shape t2) < length (shape t1))
                   then shape t1 else shape t2) !! k).
Proof.
  rewrite ConcreteBroadcast_walk, bind_run.
  destruct (walk _ t1 t2 _ _ w) as [[ds|e] w1] eqn:Ew; [|discriminate].
  intros [= <- <-]. exists (reverse ds). split; [reflexivity|].
  apply walk_shape in Ew as (Hlen & Hpick & Hlead).
  rewrite !length_reverse in *. rewrite reverse_involutive.
  split; [exact Hlen|]. split; [exact Hpick|].
  intros k Hk. rewrite (Hlead k Hk).
  destruct (decide (length (shape t2) < length (shape t1))); reflexivity.
Qed.

Lemma ConcreteBroadcast_shape_witness :
  let t1 := mkTensorType [Var "n"; Any; IntImm 1] (Float_ 32) in
  let t2 := mkTensorType [IntImm 4; IntImm 3] (Float_ 32) in
  exists oshape,
    TensorType (mkTensorType [Var "n"; IntImm 4; IntImm 3] Bool_)
    = TensorType (mkTensorType oshape Bool_) /\
    length oshape = 3 `max` 2.
Proof.
  intros t1 t2.
  destruct (ConcreteBroadcast_shape linear_simplify t1 t2 Bool_ (mkWorld [] [])
              (mkWorld [] [any_warning (IntImm 4) t1 t2])
              (TensorType (mkTensorType [Var "n"; IntImm 4; IntImm 3] Bool_))
              eq_refl) as (oshape & Hout & Hlen & _).
  exists oshape. split; [exact Hout | exact Hlen].
Defined.

Lemma broadcast_dim_one_r (CanonicalSimplify : IndexExpr -> IndexExpr)
    (t1 t2 : TensorTypeNode) (s1 : IndexExpr) (w : World) :
  broadcast_dim CanonicalSimplify t1 t2 s1 (IntImm 1) w = (Ok s1, w).
Proof.
  unfold broadcast_dim.
  destruct (EqualCheck _ s1 (IntImm 1)); [reflexivity|].
  destruct (EqualConstInt s1 1) eqn:E; [|reflexivity].
  apply EqualConstInt_true in E. subst s1. reflexivity.
Qed.

Lemma walk_ones_r (CanonicalSimplify : IndexExpr -> IndexExpr)
    (t1 t2 : TensorTypeNode) (r1 r2 : list IndexExpr) (w : World) :
  Forall (fun s => s = IntImm 1) r2 -> length r2 <= length r1 ->
  walk CanonicalSimplify t1 t2 r1 r2 w = (Ok r1, w).
Proof.
  intros H2. revert r1. induction H2 as [|s2 r2 Hs2 Hr2 IH]; intros r1 Hlen.
  - destruct r1; reflexivity.
  - destruct r1 as [|s1 r1]; [simpl in Hlen; lia|]. subst s2.
    simpl walk. rewrite bind_run, broadcast_dim_one_r, bind_run.
    rewrite IH by (simpl in Hlen; lia). reflexivity.
Qed.

(** X4: what is neutral for broadcasting.  A shape of literal ones of no
    higher rank on the right (in particular a tensor of rank 0) gives the
    left shape back as it is, whatever its dimensions are (literal, symbolic
    or wildcard), without any warning and without any error; and so does a
    tensor of rank 0 on the left for the right shape. *)
Theorem ConcreteBroadcast_neutral (CanonicalSimplify : IndexExpr -> IndexExpr)
    (t1 t2 : TensorTypeNode) (output_dtype : DataType) (w : World) :
  (Forall (fun s => s = IntImm 1) (shape t2) ->
   length (shape t2) <= length (shape t1) ->
   ConcreteBroadcast CanonicalSimplify t1 t2 output_dtype w
   = (Ok (TensorType (mkTensorType (shape t1) output_dtype)), w)) /\
  (shape t1 = [] ->
   ConcreteBroadcast CanonicalSimplify t1 t2 output_dtype w
   = (Ok (TensorType (mkTensorType (shape t2) output_dtype)), w)).
Proof.
  split.
  - intros Hones Hlen. rewrite ConcreteBroadcast_walk, bind_run.
    rewrite walk_ones_r.
    + rewrite ret_run, reverse_involutive. reflexivity.
    + apply Forall_reverse, Hones.
    + rewrite !length_reverse. exact Hlen.
  - intros Hnil. rewrite ConcreteBroadcast_walk, bind_run, Hnil.
    change (reverse []) with (@nil IndexExpr). simpl. rewrite ret_run.
    rewrite reverse_involutive. reflexivity.
Qed.

Lemma ConcreteBroadcast_neutral_witness :
  let t1 := mkTensorType [Any; Var "n"; IntImm 7] (Float_ 32) in
  let t2 := mkTensorType [IntImm 1; IntImm 1] (Float_ 32) in
  ConcreteBroadcast linear_simplify t1 t2 (Float_ 32) (mkWorld [] [])
  = (Ok (TensorType (mkTensorType [Any; Var "n"; IntImm 7] (Float_ 32))),
     mkWorld [] []).
Proof.
  intros t1 t2.
  destruct (ConcreteBroadcast_neutral linear_simplify t1 t2 (Float_ 32)
              (mkWorld [] [])) as [H _].
  apply H.
  - repeat constructor.
  - simpl. lia.
Defined.

(** ** Wildcards and warnings *)

Lemma broadcast_dim_quiet (CanonicalSimplify : IndexExpr -> IndexExpr)
    (t1 t2 : TensorTypeNode) (s1 s2 : IndexExpr) (w : World) :
  s1 <> Any -> s2 <> Any ->
  exists o, broadcast_dim CanonicalSimplify t1 t2 s1 s2 w = (o, w).
Proof.
  intros H1 H2. unfold broadcast_dim.
  destruct (EqualCheck _ s1 s2); [eexists; reflexivity|].
  destruct (EqualConstInt s1 1); [eexists; reflexivity|].
  destruct (EqualConstInt s2 1); [eexists; reflexivity|].
  destruct s1; try contradiction; destruct s2; try contradiction;
    eexists; reflexivity.
Qed.

Lemma walk_quiet (CanonicalSimplify : IndexExpr -> IndexExpr)
    (t1 t2 : TensorTypeNode) (r1 r2 : list IndexExpr) (w : World) :
  no_wildcard r1 -> no_wildcard r2 ->
  exists o, walk CanonicalSimplify t1 t2 r1 r2 w = (o, w).
Proof.
  intros H1. revert r2. induction H1 as [|s1 r1 Hs1 Hr1 IH];
    intros r2 H2; destruct H2 as [|s2 r2 Hs2 Hr2];
    try (eexists; reflexivity).
  simpl walk. rewrite bind_run.
  destruct (broadcast_dim_quiet CanonicalSimplify t1 t2 s1 s2 w Hs1 Hs2) as [o ->].
  destruct o as [d|e]; [|eexists; reflexivity].
  rewrite bind_run. destruct (IH r2 Hr2) as [o ->].
  destruct o; eexists; reflexivity.
Qed.

(** X5: a warning is logged only for a wildcard: when no dimension of either
    shape is [Any], [ConcreteBroadcast] leaves the log and the reporter
    exactly as they were, whether it returns or raises. *)
Theorem ConcreteBroadcast_quiet (CanonicalSimplify : IndexExpr -> IndexExpr)
    (t1 t2 : TensorTypeNode) (output_dtype : DataType) (w : World) :
  no_wildcard (shape t1) -> no_wildcard (shape t2) ->
  exists o, ConcreteBroadcast CanonicalSimplify t1 t2 output_dtype w = (o, w).
Proof.
  intros H1 H2. rewrite ConcreteBroadcast_walk, bind_run.
  destruct (walk_quiet CanonicalSimplify t1 t2 (reverse (shape t1))
              (reverse (shape t2)) w) as [o ->];
    try (apply Forall_reverse; assumption).
  destruct o; eexists; reflexivity.
Qed.

Lemma ConcreteBroadcast_quiet_witness :
  let t1 := mkTensorType [Var "n"; IntImm 1] (Float_ 32) in
  let t2 := mkTensorType [Var "n"; IntImm 8] (Float_ 32) in
  exists o,
    ConcreteBroadcast linear_simplify t1 t2 (Float_ 32) (mkWorld [] [])
    = (o, mkWorld [] []).
Proof.
  intros t1 t2.
  apply (ConcreteBroadcast_quiet linear_simplify t1 t2 (Float_ 32) (mkWorld [] []));
    repeat constructor; discriminate.
Defined.

Lemma broadcast_dim_warns (CanonicalSimplify : IndexExpr -> IndexExpr)
    (t1 t2 : TensorTypeNode) (s1 s2 : IndexExpr) (w : World) :
  exists o ms,
    broadcast_dim CanonicalSimplify t1 t2 s1 s2 w
    = (o, mkWorld (assigned w) (warnings w ++ ms)) /\
    length ms <= 1 /\
    Forall (fun m => exists other, m = any_warning other t1 t2) ms.
Proof.
  assert (w = mkWorld (assigned w) (warnings w ++ [])) as Hw
    by (rewrite app_nil_r; destruct w; reflexivity).
  unfold broadcast_dim.
  destruct (EqualCheck _ s1 s2);
    [exists (Ok s1), []; rewrite <- Hw; repeat split; auto|].
  destruct (EqualConstInt s1 1);
    [exists (Ok s2), []; rewrite <- Hw; repeat split; auto|].
  destruct (EqualConstInt s2 1);
    [exists (Ok s1), []; rewrite <- Hw; repeat split; auto|].
  destruct (same_as_Any s1);
    [exists (Ok s2), [any_warning s2 t1 t2]; repeat split; eauto|].
  destruct (same_as_Any s2);
    [exists (Ok s1), [any_warning s1 t1 t2]; repeat split; eauto|].
  exists (Raise (incompatible_broadcast t1 t2)), []. rewrite <- Hw.
  repeat split; auto.
Qed.

Lemma walk_warns (CanonicalSimplify : IndexExpr -> IndexExpr)
    (t1 t2 : TensorTypeNode) (r1 r2 : list IndexExpr) (w : World) :
  exists o ms,
    walk CanonicalSimplify t1 t2 r1 r2 w
    = (o, mkWorld (assigned w) (warnings w ++ ms)) /\
    length ms <= length r1 `min` length r2 /\
    Forall (fun m => exists other, m = any_warning other t1 t2) ms.
Proof.
  assert (forall w, w = mkWorld (assigned w) (warnings w ++ [])) as Hnil
    by (intros w0; rewrite app_nil_r; destruct w0; reflexivity).
  revert r2 w. induction r1 as [|s1 r1 IH]; intros [|s2 r2] w;
    try (eexists _, []; rewrite <- Hnil;
         split; [reflexivity|split; [simpl; lia|constructor]]).
  simpl walk. rewrite bind_run.
  destruct (broadcast_dim_warns CanonicalSimplify t1 t2 s1 s2 w)
    as (o & ms & -> & Hlen & Hms).
  destruct o as [d|e]; cbv beta iota.
  - rewrite bind_run.
    destruct (IH r2 (mkWorld (assigned w) (warnings w ++ ms)))
      as (o' & ms' & -> & Hlen' & Hms').
    simpl. exists (match o' with Ok ds => Ok (d :: ds) | Raise e => Raise e end),
                  (ms ++ ms').
    rewrite app_assoc. split; [destruct o'; reflexivity|].
    split; [rewrite length_app; lia|]. apply Forall_app. split; assumption.
  - exists (Raise e), ms. split; [reflexivity|]. split; [simpl; lia|exact Hms].
Qed.

(** X6: [ConcreteBroadcast] keeps to itself, whatever the shapes: it leaves
    the reporter's assignments alone; it adds at most one line to the log per
    aligned pair of dimensions, that is, at most as many as the smaller rank,
    and every line it adds is the wildcard warning naming its two arguments;
    and the one error it can raise is the incompatibility error of its two
    arguments, so no shape is ever read outside its bounds. *)
Theorem ConcreteBroadcast_frame (CanonicalSimplify : IndexExpr -> IndexExpr)
    (t1 t2 : TensorTypeNode) (output_dtype : DataType) (w : World) :
  exists o ms,
    ConcreteBroadcast CanonicalSimplify t1 t2 output_dtype w
    = (o, mkWorld (assigned w) (warnings w ++ ms)) /\
    length ms <= length (shape t1) `min` length (shape t2) /\
    Forall (fun m => exists other, m = any_warning other t1 t2) ms /\
    (forall e, o = Raise e -> e = incompatible_broadcast t1 t2).
Proof.
  destruct (walk_warns CanonicalSimplify t1 t2 (reverse (shape t1))
              (reverse (shape t2)) w) as (o & ms & Hw & Hlen & Hms).
  rewrite !length_reverse in Hlen.
  exists (match o with
          | Ok ds => Ok (TensorType (mkTensorType (reverse ds) output_dtype))
          | Raise e => Raise e
          end), ms.
  assert (ConcreteBroadcast CanonicalSimplify t1 t2 output_dtype w
          = (match o with
             | Ok ds => Ok (TensorType (mkTensorType (reverse ds) output_dtype))
             | Raise e => Raise e
             end, mkWorld (assigned w) (warnings w ++ ms))) as Hrun.
  { rewrite ConcreteBroadcast_walk, bind_run, Hw. destruct o; reflexivity. }
  split; [exact Hrun|]. split; [exact Hlen|]. split; [exact Hms|].
  intros e He. rewrite He in Hrun. eapply ConcreteBroadcast_in_bounds, Hrun.
Qed.

(** ** Broadcasting a shape with itself, and in the other order *)

Lemma walk_same (CanonicalSimplify : IndexExpr -> IndexExpr)
    (t1 t2 : TensorTypeNode) (r : list IndexExpr) (w : World) :
  Forall (fun s => EqualCheck CanonicalSimplify s s = true) r ->
  walk CanonicalSimplify t1 t2 r r w = (Ok r, w).
Proof.
  induction 1 as [|s r Hs Hr IH]; [reflexivity|].
  simpl walk. rewrite bind_run. unfold broadcast_dim. rewrite Hs, ret_run.
  rewrite bind_run, IH. reflexivity.
Qed.

(** X7: broadcasting a shape with itself gives the shape back, with no
    warning and no error: for shapes of integer literals under any
    simplifier, and for all shapes under a simplifier that keeps values and
    folds every always-zero expression to 0. *)
Theorem ConcreteBroadcast_same_shape (CanonicalSimplify : IndexExpr -> IndexExpr)
    (t1 t2 : TensorTypeNode) (output_dtype : DataType) (w : World) :
  shape t2 = shape t1 ->
  concrete_shape (shape t1) \/
  (simplifier_sound CanonicalSimplify /\ simplifier_complete CanonicalSimplify) ->
  ConcreteBroadcast CanonicalSimplify t1 t2 output_dtype w
  = (Ok (TensorType (mkTensorType (shape t1) output_dtype)), w).
Proof.
  intros Hsame Hrefl. rewrite ConcreteBroadcast_walk, bind_run, Hsame.
  rewrite walk_same; [rewrite ret_run, reverse_involutive; reflexivity|].
  apply Forall_reverse. destruct Hrefl as [Hc|[Hs Hcomp]].
  - eapply Forall_impl; [exact Hc|]. intros s [v ->].
    rewrite EqualCheck_literal, wrap64_diff_refl. reflexivity.
  - apply Forall_forall. intros s _. apply EqualCheck_refl; assumption.
Qed.

Lemma ConcreteBroadcast_same_shape_witness :
  let t1 := mkTensorType [Var "batch"; Any; IntImm 16] (Float_ 32) in
  let t2 := mkTensorType [Var "batch"; Any; IntImm 16] (Int_ 8) in
  ConcreteBroadcast linear_simplify t1 t2 Bool_ (mkWorld [] [])
  = (Ok (TensorType (mkTensorType [Var "batch"; Any; IntImm 16] Bool_)),
     mkWorld [] []).
Proof.
  intros t1 t2.
  apply (ConcreteBroadcast_same_shape linear_simplify t1 t2 Bool_ (mkWorld [] [])).
  - reflexivity.
  - right. split; [exact linear_simplify_sound | exact linear_simplify_complete].
Defined.

Lemma int64_dim_concrete (e : IndexExpr) : int64_dim e -> concrete_dim e.
Proof. intros (v & -> & _). exists v. reflexivity. Qed.

Lemma int64_shape_concrete (sh : list IndexExpr) :
  int64_shape sh -> concrete_shape sh.
Proof.
  intros H. eapply Forall_impl; [exact H | apply int64_dim_concrete].
Qed.

Lemma EqualCheck_int64 (CanonicalSimplify : IndexExpr -> IndexExpr) (x y : Z) :
  (- 2 ^ 63 <= x < 2 ^ 63)%Z -> (- 2 ^ 63 <= y < 2 ^ 63)%Z ->
  EqualCheck CanonicalSimplify (IntImm x) (IntImm y) = bool_decide (x = y).
Proof.
  intros Hx Hy. apply eq_true_iff_eq.
  rewrite bool_decide_eq_true, EqualCheck_literal, Z.eqb_eq, wrap64_zero_iff.
  change (2 ^ 63)%Z with 9223372036854775808%Z in *.
  change (2 ^ 64)%Z with 18446744073709551616%Z.
  Z.to_euclidean_division_equations. lia.
Qed.

(** The rule for one pair of literals in the 64-bit range, as arithmetic. *)
Lemma spec_pair_int64 (CanonicalSimplify : IndexExpr -> IndexExpr) (x y : Z) :
  (- 2 ^ 63 <= x < 2 ^ 63)%Z -> (- 2 ^ 63 <= y < 2 ^ 63)%Z ->
  spec_pair CanonicalSimplify (IntImm x) (IntImm y)
  = if decide (x = y) then Some (IntImm x)
    else if decide (x = 1%Z) then Some (IntImm y)
    else if decide (y = 1%Z) then Some (IntImm x)
    else None.
Proof.
  intros Hx Hy. unfold spec_pair. rewrite EqualCheck_int64 by assumption.
  destruct (decide (x = y)) as [E|E];
    [rewrite bool_decide_eq_true_2 by exact E; reflexivity|].
  rewrite bool_decide_eq_false_2 by exact E.
  destruct (decide (x = 1%Z)) as [->|E1].
  { rewrite decide_True by reflexivity. reflexivity. }
  rewrite decide_False by congruence.
  destruct (decide (y = 1%Z)) as [->|E2].
  { rewrite decide_True by reflexivity. reflexivity. }
  rewrite decide_False by congruence. reflexivity.
Qed.

Lemma spec_pair_comm (CanonicalSimplify : IndexExpr -> IndexExpr)
    (s1 s2 : IndexExpr) :
  int64_dim s1 -> int64_dim s2 ->
  spec_pair CanonicalSimplify s1 s2 = spec_pair CanonicalSimplify s2 s1.
Proof.
  intros (x & -> & Hx) (y & -> & Hy). rewrite !spec_pair_int64 by assumption.
  repeat case_decide; subst; try reflexivity; congruence.
Qed.

Lemma spec_align_comm (CanonicalSimplify : IndexExpr -> IndexExpr)
    (r1 r2 : list IndexExpr) :
  int64_shape r1 -> int64_shape r2 ->
  spec_align CanonicalSimplify r1 r2 = spec_align CanonicalSimplify r2 r1.
Proof.
  intros H1. revert r2. induction H1 as [|s1 r1 Hs1 Hr1 IH];
    intros r2 H2; destruct H2 as [|s2 r2 Hs2 Hr2]; try reflexivity.
  simpl. rewrite (spec_pair_comm _ s1 s2), (IH r2) by assumption. reflexivity.
Qed.

(** X8: on shapes of integer literals in the 64-bit range the order of the
    two arguments does not matter for the result: [ConcreteBroadcast] returns
    a type for [(t1, t2)] exactly when it returns the same type for
    [(t2, t1)] (so it also fails for both orders or for none). *)
Theorem ConcreteBroadcast_comm (CanonicalSimplify : IndexExpr -> IndexExpr)
    (t1 t2 : TensorTypeNode) (output_dtype : DataType) (w : World) (out : Ty) :
  int64_shape (shape t1) -> int64_shape (shape t2) ->
  ConcreteBroadcast CanonicalSimplify t1 t2 output_dtype w = (Ok out, w) <->
  ConcreteBroadcast CanonicalSimplify t2 t1 output_dtype w = (Ok out, w).
Proof.
  intros H1 H2. rewrite !ConcreteBroadcast_walk, !bind_run.
  rewrite !walk_concrete
    by (apply Forall_reverse, int64_shape_concrete; assumption).
  rewrite (spec_align_comm _ (reverse (shape t1)) (reverse (shape t2)))
    by (apply Forall_reverse; assumption).
  destruct (spec_align _ _ _); [reflexivity|]. split; discriminate.
Qed.

Lemma ConcreteBroadcast_comm_witness :
  let t1 := mkTensorType [IntImm 8; IntImm 1; IntImm 6; IntImm 1] (Float_ 32) in
  let t2 := mkTensorType [IntImm 7; IntImm 1; IntImm 5] (Float_ 32) in
  ConcreteBroadcast linear_simplify t2 t1 (Float_ 32) (mkWorld [] [])
  = (Ok (TensorType (mkTensorType [IntImm 8; IntImm 7; IntImm 6; IntImm 5]
                                  (Float_ 32))), mkWorld [] []).
Proof.
  intros t1 t2.
  apply (ConcreteBroadcast_comm linear_simplify t1 t2 (Float_ 32) (mkWorld [] [])).
  - repeat constructor; eexists; (split; [reflexivity | simpl; lia]).
  - repeat constructor; eexists; (split; [reflexivity | simpl; lia]).
  - reflexivity.
Defined.

(** ** Chains of broadcasts *)

Lemma ConcreteBroadcast_concrete_iff (CanonicalSimplify : IndexExpr -> IndexExpr)
    (t1 t2 : TensorTypeNode) (output_dtype : DataType) (w : World) (out : Ty) :
  concrete_shape (shape t1) -> concrete_shape (shape t2) ->
  ConcreteBroadcast CanonicalSimplify t1 t2 output_dtype w = (Ok out, w) <->
  exists ds,
    spec_align CanonicalSimplify (reverse (shape t1)) (reverse (shape t2)) = Some ds /\
    out = TensorType (mkTensorType (reverse ds) output_dtype).
Proof.
  intros H1 H2. rewrite ConcreteBroadcast_walk, bind_run.
  rewrite walk_concrete by (apply Forall_reverse; assumption).
  destruct (spec_align _ _ _) as [ds|]; rewrite ?ret_run; split.
  - intros [= <-]. eauto.
  - intros (ds' & [= <-] & ->). reflexivity.
  - discriminate.
  - intros (ds' & Hds & _). discriminate.
Qed.

Lemma spec_pair_picks (CanonicalSimplify : IndexExpr -> IndexExpr)
    (s1 s2 d : IndexExpr) :
  spec_pair CanonicalSimplify s1 s2 = Some d -> d = s1 \/ d = s2.
Proof.
  unfold spec_pair. destruct (EqualCheck _ s1 s2); [intros [= <-]; auto|].
  destruct (decide (s1 = IntImm 1)); [intros [= <-]; auto|].
  destruct (decide (s2 = IntImm 1)); [intros [= <-]; auto|]. discriminate.
Qed.

Lemma spec_align_int64 (CanonicalSimplify : IndexExpr -> IndexExpr)
    (r1 r2 ds : list IndexExpr) :
  int64_shape r1 -> int64_shape r2 ->
  spec_align CanonicalSimplify r1 r2 = Some ds -> int64_shape ds.
Proof.
  intros H1. revert r2 ds. induction H1 as [|s1 r1 Hs1 Hr1 IH];
    intros r2 ds H2; destruct H2 as [|s2 r2 Hs2 Hr2]; simpl;
    try (intros [= <-]; repeat constructor; assumption).
  destruct (spec_pair _ s1 s2) as [d|] eqn:Ed; [|discriminate].
  destruct (spec_align _ r1 r2) as [ds'|] eqn:Ea; [|discriminate].
  intros [= <-]. constructor; [|eapply IH; eassumption].
  destruct (spec_pair_picks _ _ _ _ Ed) as [->| ->]; assumption.
Qed.

Lemma spec_pair_assoc (CanonicalSimplify : IndexExpr -> IndexExpr)
    (s1 s2 s3 : IndexExpr) :
  int64_dim s1 -> int64_dim s2 -> int64_dim s3 ->
  spec_pair CanonicalSimplify s1 s2 ≫= (fun d => spec_pair CanonicalSimplify d s3)
  = spec_pair CanonicalSimplify s2 s3 ≫= (fun d => spec_pair CanonicalSimplify s1 d).
Proof.
  intros (x & -> & Hx) (y & -> & Hy) (z & -> & Hz).
  rewrite (spec_pair_int64 _ x y), (spec_pair_int64 _ y z) by assumption.
  repeat case_decide; simpl; rewrite ?spec_pair_int64 by assumption;
    repeat case_decide; subst; try reflexivity; congruence.
Qed.

Lemma spec_align_nil_r (CanonicalSimplify : IndexExpr -> IndexExpr)
    (r : list IndexExpr) :
  spec_align CanonicalSimplify r [] = Some r.
Proof. destruct r; reflexivity. Qed.

Lemma spec_align_assoc (CanonicalSimplify : IndexExpr -> IndexExpr)
    (r1 r2 r3 : list IndexExpr) :
  int64_shape r1 -> int64_shape r2 -> int64_shape r3 ->
  spec_align CanonicalSimplify r1 r2
    ≫= (fun r12 => spec_align CanonicalSimplify r12 r3)
  = spec_align CanonicalSimplify r2 r3
    ≫= (fun r23 => spec_align CanonicalSimplify r1 r23).
Proof.
  intros H1. revert r2 r3. induction H1 as [|x r1 Hx Hr1 IH]; intros r2 r3 H2 H3.
  - cbn [spec_align mbind option_bind].
    destruct (spec_align CanonicalSimplify r2 r3); reflexivity.
  - destruct H2 as [|y r2 Hy Hr2]; [reflexivity|].
    destruct H3 as [|z r3 Hz Hr3].
    { rewrite (spec_align_nil_r _ (y :: r2)). cbn [mbind option_bind].
      destruct (spec_align CanonicalSimplify (x :: r1) (y :: r2)) as [r12|];
        cbn [mbind option_bind]; [apply spec_align_nil_r | reflexivity]. }
    pose proof (spec_pair_assoc CanonicalSimplify x y z Hx Hy Hz) as Hp.
    pose proof (IH r2 r3 Hr2 Hr3) as Ha.
    transitivity
      (match spec_pair CanonicalSimplify x y
               ≫= (fun d => spec_pair CanonicalSimplify d z),
             spec_align CanonicalSimplify r1 r2
               ≫= (fun r12 => spec_align CanonicalSimplify r12 r3) with
       | Some e, Some es => Some (e :: es)
       | _, _ => None
       end).
    + clear Hp Ha. cbn [spec_align mbind option_bind].
      destruct (spec_pair CanonicalSimplify x y) as [d|],
               (spec_align CanonicalSimplify r1 r2) as [ds|];
        cbn [spec_align mbind option_bind]; try reflexivity.
      destruct (spec_pair CanonicalSimplify d z); reflexivity.
    + rewrite Hp, Ha. clear Hp Ha. cbn [spec_align mbind option_bind].
      destruct (spec_pair CanonicalSimplify y z) as [d'|],
               (spec_align CanonicalSimplify r2 r3) as [ds'|];
        cbn [spec_align mbind option_bind]; try reflexivity.
      destruct (spec_pair CanonicalSimplify x d'); reflexivity.
Qed.

(** X9: chained broadcasts may be grouped either way.  On shapes of integer
    literals in the 64-bit range, broadcasting [ta] with [tb] and the result
    with [tc] returns a type exactly when broadcasting [tb] with [tc] and
    [ta] with that result returns the same type; so the two groupings also
    fail together. *)
Theorem ConcreteBroadcast_assoc (CanonicalSimplify : IndexExpr -> IndexExpr)
    (ta tb tc : TensorTypeNode) (output_dtype : DataType) (w : World) (out : Ty) :
  int64_shape (shape ta) -> int64_shape (shape tb) -> int64_shape (shape tc) ->
  (exists tab,
      ConcreteBroadcast CanonicalSimplify ta tb output_dtype w
      = (Ok (TensorType tab), w) /\
      ConcreteBroadcast CanonicalSimplify tab tc output_dtype w = (Ok out, w)) <->
  (exists tbc,
      ConcreteBroadcast CanonicalSimplify tb tc output_dtype w
      = (Ok (TensorType tbc), w) /\
      ConcreteBroadcast CanonicalSimplify ta tbc output_dtype w = (Ok out, w)).
Proof.
  intros Ha Hb Hc.
  pose proof (spec_align_assoc CanonicalSimplify _ _ _
                (proj2 (Forall_reverse _ _) Ha) (proj2 (Forall_reverse _ _) Hb)
                (proj2 (Forall_reverse _ _) Hc)) as Hassoc.
  assert (forall t1 t2 ds,
             int64_shape (shape t1) -> int64_shape (shape t2) ->
             spec_align CanonicalSimplify (reverse (shape t1)) (reverse (shape t2))
             = Some ds ->
             int64_shape (reverse ds)) as Hclosed.
  { intros t1 t2 ds H1 H2 Hds. apply Forall_reverse.
    eapply spec_align_int64; [| |exact Hds]; apply Forall_reverse; assumption. }
  split.
  - intros (tab & Hab & Habc).
    apply ConcreteBroadcast_concrete_iff in Hab as (ds & Hds & [= ->]);
      try (apply int64_shape_concrete; assumption).
    pose proof (Hclosed ta tb ds Ha Hb Hds) as Hab64.
    apply ConcreteBroadcast_concrete_iff in Habc as (es & Hes & ->);
      try (apply int64_shape_concrete; assumption).
    simpl in Hes. rewrite reverse_involutive in Hes.
    rewrite Hds in Hassoc. cbn [mbind option_bind] in Hassoc.
    rewrite Hes in Hassoc.
    destruct (spec_align CanonicalSimplify (reverse (shape tb)) (reverse (shape tc)))
      as [ds'|] eqn:Hds'; [|discriminate].
    cbn [mbind option_bind] in Hassoc.
    pose proof (Hclosed tb tc ds' Hb Hc Hds') as Hbc64.
    exists (mkTensorType (reverse ds') output_dtype). split.
    + apply (proj2 (ConcreteBroadcast_concrete_iff CanonicalSimplify tb tc
                      output_dtype w _ (int64_shape_concrete _ Hb)
                      (int64_shape_concrete _ Hc))). eauto.
    + apply (proj2 (ConcreteBroadcast_concrete_iff CanonicalSimplify ta
                      (mkTensorType (reverse ds') output_dtype)
                      output_dtype w _ (int64_shape_concrete _ Ha)
                      (int64_shape_concrete _ Hbc64))).
      exists es. simpl. rewrite reverse_involutive. split; [congruence|reflexivity].
  - intros (tbc & Hbc & Habc).
    apply ConcreteBroadcast_concrete_iff in Hbc as (ds' & Hds' & [= ->]);
      try (apply int64_shape_concrete; assumption).
    pose proof (Hclosed tb tc ds' Hb Hc Hds') as Hbc64.
    apply ConcreteBroadcast_concrete_iff in Habc as (es & Hes & ->);
      try (apply int64_shape_concrete; assumption).
    simpl in Hes. rewrite reverse_involutive in Hes.
    rewrite Hds' in Hassoc. cbn [mbind option_bind] in Hassoc.
    rewrite Hes in Hassoc.
    destruct (spec_align CanonicalSimplify (reverse (shape ta)) (reverse (shape tb)))
      as [ds|] eqn:Hds; [|discriminate].
    cbn [mbind option_bind] in Hassoc.
    pose proof (Hclosed ta tb ds Ha Hb Hds) as Hab64.
    exists (mkTensorType (reverse ds) output_dtype). split.
    + apply (proj2 (ConcreteBroadcast_concrete_iff CanonicalSimplify ta tb
                      output_dtype w _ (int64_shape_concrete _ Ha)
                      (int64_shape_concrete _ Hb))). eauto.
    + apply (proj2 (ConcreteBroadcast_concrete_iff CanonicalSimplify
                      (mkTensorType (reverse ds) output_dtype) tc
                      output_dtype w _ (int64_shape_concrete _ Hab64)
                      (int64_shape_concrete _ Hc))).
      exists es. simpl. rewrite reverse_involutive. split; [congruence|reflexivity].
Qed.

Lemma ConcreteBroadcast_assoc_witness :
  let ta := mkTensorType [IntImm 8; IntImm 1; IntImm 6; IntImm 1] (Float_ 32) in
  let tb := mkTensorType [IntImm 7; IntImm 1; IntImm 5] (Float_ 32) in
  let tc := mkTensorType [IntImm 6; IntImm 1] (Float_ 32) in
  exists tbc,
    ConcreteBroadcast linear_simplify tb tc (Float_ 32) (mkWorld [] [])
    = (Ok (TensorType tbc), mkWorld [] []) /\
    ConcreteBroadcast linear_simplify ta tbc (Float_ 32) (mkWorld [] [])
    = (Ok (TensorType (mkTensorType [IntImm 8; IntImm 7; IntImm 6; IntImm 5]
                                    (Float_ 32))), mkWorld [] []).
Proof.
  intros ta tb tc.
  apply (ConcreteBroadcast_assoc linear_simplify ta tb tc (Float_ 32) (mkWorld [] [])).
  - repeat constructor; eexists; (split; [reflexivity | simpl; lia]).
  - repeat constructor; eexists; (split; [reflexivity | simpl; lia]).
  - repeat constructor; eexists; (split; [reflexivity | simpl; lia]).
  - exists (mkTensorType [IntImm 8; IntImm 7; IntImm 6; IntImm 5] (Float_ 32)).
    split; reflexivity.
Defined.

(** ** The two relations as a whole *)

Lemma BroadcastRel_run (CanonicalSimplify : IndexExpr -> IndexExpr)
    {Attrs : Type} (types : list Ty) (num_inputs : Z) (attrs : Attrs) (w : World) :
  BroadcastRel CanonicalSimplify types num_inputs attrs w
  = match types with
    | [ty0; ty1; ty2] =>
        match ToTensorType ty0, ToTensorType ty1 with
        | Some t0, Some t1 =>
            if decide (dtype t0 = dtype t1) then
              match ConcreteBroadcast CanonicalSimplify t0 t1 (dtype t0) w with
              | (Ok out, w') =>
                  (Ok true, mkWorld (assigned w' ++ [(ty2, out)]) (warnings w'))
              | (Raise e, w') => (Raise e, w')
              end
            else (Raise (CheckFailed "t0->dtype == t1->dtype"), w)
        | _, _ => (Ok false, w)
        end
    | _ => (Raise (CheckFailed "types.size() == 3"), w)
    end.
Proof.
  destruct types as [|ty0 [|ty1 [|ty2 [|ty3 rest]]]]; try reflexivity.
  unfold BroadcastRel, bind, CHECK_EQ, Assign, ret. simpl.
  destruct (ToTensorType ty0) as [t0|]; [|reflexivity]. simpl.
  destruct (ToTensorType ty1) as [t1|]; [|reflexivity].
  destruct (decide (dtype t0 = dtype t1)) as [_|_]; [|reflexivity]. simpl.
  destruct (ConcreteBroadcast _ t0 t1 (dtype t0) w) as [[out|e] w']; reflexivity.
Qed.

Lemma BroadcastCompRel_run (CanonicalSimplify : IndexExpr -> IndexExpr)
    {Attrs : Type} (types : list Ty) (num_inputs : Z) (attrs : Attrs) (w : World) :
  BroadcastCompRel CanonicalSimplify types num_inputs attrs w
  = match types with
    | [ty0; ty1; ty2] =>
        match ToTensorType ty0, ToTensorType ty1 with
        | Some t0, Some t1 =>
            if decide (dtype t0 = dtype t1) then
              match ConcreteBroadcast CanonicalSimplify t0 t1 Bool_ w with
              | (Ok out, w') =>
                  (Ok true, mkWorld (assigned w' ++ [(ty2, out)]) (warnings w'))
              | (Raise e, w') => (Raise e, w')
              end
            else (Raise (CheckFailed "t0->dtype == t1->dtype"), w)
        | _, _ => (Ok false, w)
        end
    | _ => (Raise (CheckFailed "types.size() == 3"), w)
    end.
Proof.
  destruct types as [|ty0 [|ty1 [|ty2 [|ty3 rest]]]]; try reflexivity.
  unfold BroadcastCompRel, bind, CHECK_EQ, Assign, ret. simpl.
  destruct (ToTensorType ty0) as [t0|]; [|reflexivity]. simpl.
  destruct (ToTensorType ty1) as [t1|]; [|reflexivity].
  destruct (decide (dtype t0 = dtype t1)) as [_|_]; [|reflexivity]. simpl.
  destruct (ConcreteBroadcast _ t0 t1 Bool_ w) as [[out|e] w']; reflexivity.
Qed.

Lemma ConcreteBroadcast_outcome (CanonicalSimplify : IndexExpr -> IndexExpr)
    (t1 t2 : TensorTypeNode) (output_dtype : DataType) (w : World) :
  (exists oshape w',
      assigned w' = assigned w /\
      forall dt, ConcreteBroadcast CanonicalSimplify t1 t2 dt w
                 = (Ok (TensorType (mkTensorType oshape dt)), w')) \/
  (exists e w',
      assigned w' = assigned w /\
      forall dt, ConcreteBroadcast CanonicalSimplify t1 t2 dt w = (Raise e, w')).
Proof.
  destruct (walk_world CanonicalSimplify t1 t2 (reverse (shape t1))
              (reverse (shape t2)) w) as (o & w' & Hw & Ha & _).
  destruct o as [ds|e]; [left; exists (reverse ds), w'|right; exists e, w'];
    (split; [exact Ha|]); intros dt;
    rewrite ConcreteBroadcast_walk, bind_run, Hw; reflexivity.
Qed.

(** X10: the broadcast relations assign at most once and never halfway, for
    every list of types: when one returns [true] it has recorded exactly one
    assignment, to the third type; when it returns [false] the reporter and
    the log are as before; when it aborts, whatever the error, no assignment
    has been recorded. *)
Theorem Broadcast_assigns_once (CanonicalSimplify : IndexExpr -> IndexExpr)
    {Attrs : Type} (types : list Ty) (num_inputs : Z) (attrs : Attrs)
    (w w' : World) (o : Outcome bool) :
  BroadcastRel CanonicalSimplify types num_inputs attrs w = (o, w') \/
  BroadcastCompRel CanonicalSimplify types num_inputs attrs w = (o, w') ->
  match o with
  | Ok true => exists ty2 out, types !! 2 = Some ty2 /\
                               assigned w' = assigned w ++ [(ty2, out)]
  | Ok false => w' = w
  | Raise _ => assigned w' = assigned w
  end.
Proof.
  rewrite BroadcastRel_run, BroadcastCompRel_run.
  destruct types as [|ty0 [|ty1 [|ty2 [|ty3 rest]]]];
    try (intros [[= <- <-]|[= <- <-]]; reflexivity).
  destruct (ToTensorType ty0) as [t0|];
    [|intros [[= <- <-]|[= <- <-]]; reflexivity].
  destruct (ToTensorType ty1) as [t1|];
    [|intros [[= <- <-]|[= <- <-]]; reflexivity].
  destruct (decide (dtype t0 = dtype t1));
    [|intros [[= <- <-]|[= <- <-]]; reflexivity].
  destruct (ConcreteBroadcast_outcome CanonicalSimplify t0 t1 Bool_ w)
    as [(oshape & w1 & Ha & Hrun)|(e' & w1 & Ha & Hrun)];
    rewrite !Hrun; intros [[= <- <-]|[= <- <-]]; simpl;
    try exact Ha; eexists _, _; (split; [reflexivity|]); rewrite Ha; reflexivity.
Qed.

Lemma Broadcast_assigns_once_witness :
  let t0 := mkTensorType [IntImm 3; IntImm 1] (Float_ 32) in
  let t1 := mkTensorType [IntImm 4] (Float_ 32) in
  let types := [TensorType t0; TensorType t1; IncompleteType 0] in
  let w := mkWorld [(IncompleteType 9, IncompleteType 8)] [] in
  let out := TensorType (mkTensorType [IntImm 3; IntImm 4] Bool_) in
  let w' := mkWorld [(IncompleteType 9, IncompleteType 8); (IncompleteType 0, out)] [] in
  BroadcastCompRel linear_simplify types 2 tt w = (Ok true, w') /\
  exists ty2 out', types !! 2 = Some ty2 /\
                   assigned w' = assigned w ++ [(ty2, out')].
Proof.
  intros t0 t1 types w out w'. split; [reflexivity|].
  apply (Broadcast_assigns_once linear_simplify types 2 tt w w' (Ok true)).
  right. reflexivity.
Defined.

(** X11: [BroadcastCompRel] is [BroadcastRel] with the boolean dtype on the
    output, for every list of types: the two return or abort alike, with the
    same error and the same warnings, and when they return [true] the types
    they assign to the output slot have the same shape and differ in the
    dtype alone. *)
Theorem BroadcastCompRel_as_BroadcastRel (CanonicalSimplify : IndexExpr -> IndexExpr)
    {Attrs : Type} (types : list Ty) (num_inputs : Z) (attrs : Attrs) (w : World) :
  (exists ty2 oshape dt w1,
      BroadcastRel CanonicalSimplify types num_inputs attrs w
      = (Ok true, mkWorld (assigned w ++ [(ty2, TensorType (mkTensorType oshape dt))])
                          (warnings w1)) /\
      BroadcastCompRel CanonicalSimplify types num_inputs attrs w
      = (Ok true, mkWorld (assigned w ++ [(ty2, TensorType (mkTensorType oshape Bool_))])
                          (warnings w1))) \/
  (exists o w1,
      o <> Ok true /\
      BroadcastRel CanonicalSimplify types num_inputs attrs w = (o, w1) /\
      BroadcastCompRel CanonicalSimplify types num_inputs attrs w = (o, w1)).
Proof.
  rewrite BroadcastRel_run, BroadcastCompRel_run.
  destruct types as [|ty0 [|ty1 [|ty2 [|ty3 rest]]]];
    try (right; eexists _, _; repeat split; discriminate).
  destruct (ToTensorType ty0) as [t0|];
    [|right; eexists _, _; repeat split; discriminate].
  destruct (ToTensorType ty1) as [t1|];
    [|right; eexists _, _; repeat split; discriminate].
  destruct (decide (dtype t0 = dtype t1));
    [|right; eexists _, _; repeat split; discriminate].
  destruct (ConcreteBroadcast_outcome CanonicalSimplify t0 t1 Bool_ w)
    as [(oshape & w1 & Ha & Hrun)|(e' & w1 & Ha & Hrun)]; rewrite !Hrun.
  - left. exists ty2, oshape, (dtype t0), w1. rewrite Ha. split; reflexivity.
  - right. eexists _, _. repeat split. discriminate.
Qed.

(** ** Strategies as lists of nodes *)

Section StrategyViewFacts.

Context {FTVMCompute FTVMSchedule : Type}.

Implicit Types (st : @Store FTVMCompute FTVMSchedule).
Implicit Types (h : gmap nat (@OpSpecializationNode FTVMCompute FTVMSchedule)).
Implicit Types (nodes : list (@OpSpecializationNode FTVMCompute FTVMSchedule)).
Implicit Types (n : @OpImplementNode FTVMCompute FTVMSchedule).
Implicit Types (rs : list (@Registration FTVMCompute FTVMSchedule)).
Implicit Types (c : SpecializedCondition) (specs : list OpSpecialization).

Lemma add_to_nodes_cons c n node nodes :
  add_to_nodes c n (node :: nodes)
  = if decide (condition node = c)
    then mkOpSpecializationNode (implements node ++ [n]) (condition node) :: nodes
    else node :: add_to_nodes c n nodes.
Proof. reflexivity. Qed.

Lemma add_to_nodes_absent c n nodes :
  c ∉ condition <$> nodes ->
  add_to_nodes c n nodes = nodes ++ [mkOpSpecializationNode [n] c].
Proof.
  induction nodes as [|node nodes IH]; [reflexivity|].
  rewrite fmap_cons, not_elem_of_cons. intros [Hne Hnot].
  rewrite add_to_nodes_cons, decide_False by congruence.
  rewrite IH by exact Hnot. reflexivity.
Qed.

Lemma add_to_nodes_conditions c n nodes :
  condition <$> add_to_nodes c n nodes
  = if decide (c ∈ condition <$> nodes) then condition <$> nodes
    else (condition <$> nodes) ++ [c].
Proof.
  induction nodes as [|node nodes IH].
  - rewrite decide_False by apply not_elem_of_nil. reflexivity.
  - rewrite add_to_nodes_cons, !fmap_cons.
    destruct (decide (condition node = c)) as [Hc|Hc].
    + rewrite decide_True by (rewrite Hc; left). reflexivity.
    + rewrite fmap_cons, IH.
      destruct (decide (c ∈ condition <$> nodes)) as [Hin|Hin].
      * rewrite decide_True by (right; exact Hin). reflexivity.
      * rewrite decide_False; [reflexivity|].
        apply not_elem_of_cons. split; [congruence|exact Hin].
Qed.

Lemma add_to_nodes_total c n nodes :
  total_implements (add_to_nodes c n nodes) = S (total_implements nodes).
Proof.
  unfold total_implements. induction nodes as [|node nodes IH]; [reflexivity|].
  rewrite add_to_nodes_cons. destruct (decide (condition node = c)).
  - rewrite !fmap_cons. simpl. rewrite length_app. simpl. lia.
  - rewrite !fmap_cons. simpl. rewrite IH. lia.
Qed.

(** The node of the condition after a call: it is there, and the new
    implementation is its last one. *)
Lemma add_to_nodes_last c n nodes :
  exists node,
    node ∈ add_to_nodes c n nodes /\ condition node = c /\
    last (implements node) = Some n.
Proof.
  induction nodes as [|node nodes IH].
  - eexists. split; [left|]. split; reflexivity.
  - rewrite add_to_nodes_cons.
    destruct (decide (condition node = c)) as [Hc|Hc].
    + eexists. split; [left|]. split; [exact Hc|]. apply last_snoc.
    + destruct IH as (node' & Hin & Hcond & Hlast).
      exists node'. split; [right; exact Hin|]. split; assumption.
Qed.

Lemma omap_alter_other h specs e0
    (F : @OpSpecializationNode FTVMCompute FTVMSchedule
         -> @OpSpecializationNode FTVMCompute FTVMSchedule) :
  (forall e, e ∈ specs -> e = e0 -> h !! e = None) ->
  omap (fun e => alter F e0 h !! e) specs = omap (fun e => h !! e) specs.
Proof.
  induction specs as [|e specs IH]; intros Hother; [reflexivity|].
  csimpl. rewrite lookup_alter.
  destruct (decide (e0 = e)) as [->|Hne].
  - rewrite (Hother e ltac:(left) eq_refl). csimpl.
    apply IH. intros e' He'. apply Hother. right. exact He'.
  - rewrite IH; [reflexivity|]. intros e' He'. apply Hother. right. exact He'.
Qed.

Lemma found_nodes h specs c e0 n :
  find_specialization h specs c = Some e0 ->
  NoDup (condition <$> omap (fun e => h !! e) specs) ->
  omap (fun e => OpSpecialization_AddImplement e0 (fcompute n) (fschedule n)
                   (plevel n) h !! e) specs
  = add_to_nodes c n (omap (fun e => h !! e) specs).
Proof.
  unfold OpSpecialization_AddImplement. destruct n as [f s p]. simpl.
  induction specs as [|e specs IH]; [discriminate|].
  simpl find_specialization. csimpl. rewrite lookup_alter.
  destruct (h !! e) as [node|] eqn:Ee.
  - destruct (decide (condition node = c)) as [Hc|Hc].
    + intros [= <-] Hnd. rewrite decide_True by reflexivity. rewrite Ee. csimpl.
      rewrite decide_True by exact Hc. f_equal.
      apply omap_alter_other. intros e' He' ->. exfalso.
      apply NoDup_cons in Hnd as [Hnot _]. apply Hnot.
      apply (list_elem_of_fmap_2 condition), list_elem_of_omap.
      exists e. split; assumption.
    + intros Hfind Hnd.
      destruct (find_specialization_Some _ _ _ _ Hfind) as (_ & node0 & He0 & Hc0).
      rewrite decide_False by (intros ->; rewrite Ee in He0; congruence).
      csimpl. rewrite decide_False by exact Hc. f_equal.
      apply IH; [exact Hfind|]. apply NoDup_cons in Hnd as [_ Hnd]. exact Hnd.
  - intros Hfind Hnd. destruct (decide (e0 = e)) as [->|Hne].
    + rewrite Ee. csimpl. apply IH; assumption.
    + csimpl. apply IH; assumption.
Qed.

(** On a store whose references are valid and whose conditions are distinct,
    a call acts on the nodes of the strategy as [add_to_nodes]. *)
Lemma AddImplement_view c (f : FTVMCompute) (s : FTVMSchedule) (p : Z) st :
  valid_refs st -> NoDup (conditions st) ->
  specialization_nodes (OpStrategy_AddImplement c f s p st)
  = add_to_nodes c (mkOpImplementNode f s p) (specialization_nodes st).
Proof.
  intros Hv Hnd.
  destruct (find_specialization (heap st) (specializations (this st)) c)
    as [e0|] eqn:E.
  - rewrite (AddImplement_found_store c f s p st e0 E).
    unfold specialization_nodes. simpl.
    apply (found_nodes (heap st) _ c e0 (mkOpImplementNode f s p) E Hnd).
  - rewrite AddImplement_new by assumption.
    rewrite add_to_nodes_absent; [reflexivity|].
    apply find_specialization_None, E.
Qed.

Lemma register_all_view rs st :
  valid_refs st -> NoDup (conditions st) ->
  specialization_nodes (register_all rs st)
  = foldl (fun nodes r => add_to_nodes (reg_cond r) (implement_of r) nodes)
          (specialization_nodes st) rs.
Proof.
  revert st. induction rs as [|r rs IH]; intros st Hv Hnd; [reflexivity|].
  simpl. rewrite IH.
  - unfold register. rewrite AddImplement_view by assumption. reflexivity.
  - apply AddImplement_valid_refs, Hv.
  - apply AddImplement_NoDup; assumption.
Qed.

Lemma first_occurrences_elem (l : list SpecializedCondition) c :
  c ∈ first_occurrences l <-> c ∈ l.
Proof.
  induction l as [|x l IH]; [reflexivity|]. simpl.
  rewrite !elem_of_cons, list_elem_of_filter, IH.
  destruct (decide (c = x)); intuition.
Qed.

Lemma first_occurrences_NoDup (l : list SpecializedCondition) :
  NoDup (first_occurrences l).
Proof.
  induction l as [|x l IH]; simpl; [apply NoDup_nil_2|].
  apply NoDup_cons. split; [|apply NoDup_filter, IH].
  rewrite list_elem_of_filter. intros [Hne _]. apply Hne. reflexivity.
Qed.

Lemma first_occurrences_snoc (l : list SpecializedCondition) c :
  first_occurrences (l ++ [c])
  = if decide (c ∈ l) then first_occurrences l else first_occurrences l ++ [c].
Proof.
  induction l as [|x l IH].
  - destruct (decide (c ∈ [])) as [H|_]; [inversion H | reflexivity].
  - cbn [first_occurrences app]. rewrite IH.
    destruct (decide (c ∈ l)) as [Hin|Hin].
    + rewrite decide_True by (right; exact Hin). reflexivity.
    + rewrite filter_app. destruct (decide (c = x)) as [->|Hne].
      * rewrite decide_True by left.
        rewrite filter_cons_False by (intros H; apply H; reflexivity).
        rewrite filter_nil, app_nil_r. reflexivity.
      * rewrite decide_False
          by (apply not_elem_of_cons; split; assumption).
        rewrite filter_cons_True by exact Hne. rewrite filter_nil. reflexivity.
Qed.

Lemma registered_under_snoc c rs r :
  registered_under c (rs ++ [r])
  = registered_under c rs ++ (if decide (reg_cond r = c) then [implement_of r] else []).
Proof.
  unfold registered_under. rewrite filter_app, fmap_app. f_equal.
  destruct (decide (reg_cond r = c)) as [Hc|Hc].
  - rewrite filter_cons_True by exact Hc. reflexivity.
  - rewrite filter_cons_False by exact Hc. reflexivity.
Qed.

Lemma registered_under_absent c rs :
  c ∉ reg_cond <$> rs -> registered_under c rs = [].
Proof.
  intros Hnot. unfold registered_under.
  induction rs as [|r rs IH]; [reflexivity|].
  rewrite fmap_cons in Hnot. apply not_elem_of_cons in Hnot as [Hne Hnot].
  rewrite filter_cons_False by congruence. apply IH, Hnot.
Qed.

Lemma add_to_nodes_grouped c n (K : list SpecializedCondition)
    (G : SpecializedCondition -> list (@OpImplementNode FTVMCompute FTVMSchedule)) :
  NoDup K -> c ∈ K ->
  add_to_nodes c n ((fun c' => mkOpSpecializationNode (G c') c') <$> K)
  = (fun c' => mkOpSpecializationNode
                 (G c' ++ if decide (c = c') then [n] else []) c') <$> K.
Proof.
  induction 1 as [|k K Hk HK IH]; intros Hin; [inversion Hin|].
  rewrite !fmap_cons, add_to_nodes_cons. simpl condition.
  destruct (decide (k = c)) as [->|Hne].
  - rewrite decide_True by reflexivity. simpl. f_equal.
    apply list_fmap_ext. intros i c' Hc'.
    rewrite decide_False; [rewrite app_nil_r; reflexivity|].
    intros ->. apply Hk. eapply list_elem_of_lookup_2, Hc'.
  - rewrite decide_False by congruence. rewrite app_nil_r. f_equal.
    apply IH. apply elem_of_cons in Hin as [->|Hin]; [congruence|exact Hin].
Qed.

Lemma group_registrations_snoc rs r :
  group_registrations (rs ++ [r])
  = add_to_nodes (reg_cond r) (implement_of r) (group_registrations rs).
Proof.
  unfold group_registrations. rewrite fmap_app. simpl.
  rewrite first_occurrences_snoc.
  destruct (decide (reg_cond r ∈ reg_cond <$> rs)) as [Hin|Hin].
  - rewrite add_to_nodes_grouped;
      [|apply first_occurrences_NoDup|apply first_occurrences_elem, Hin].
    apply list_fmap_ext. intros i c' _. rewrite registered_under_snoc.
    destruct (decide (reg_cond r = c')); reflexivity.
  - rewrite add_to_nodes_absent.
    + rewrite fmap_app. simpl. f_equal.
      * apply list_fmap_ext. intros i c' Hc'. rewrite registered_under_snoc.
        rewrite decide_False; [rewrite app_nil_r; reflexivity|].
        intros <-. apply Hin, first_occurrences_elem.
        eapply list_elem_of_lookup_2, Hc'.
      * rewrite registered_under_snoc, registered_under_absent by exact Hin.
        rewrite decide_True by reflexivity. reflexivity.
    + rewrite <- list_fmap_compose. simpl.
      intros Hc. apply Hin, first_occurrences_elem.
      rewrite list_fmap_id in Hc. exact Hc.
Qed.

Lemma foldl_add_to_nodes rs :
  foldl (fun nodes r => add_to_nodes (reg_cond r) (implement_of r) nodes) [] rs
  = group_registrations rs.
Proof.
  induction rs as [|r rs IH] using rev_ind; [reflexivity|].
  rewrite foldl_app. simpl. rewrite IH, group_registrations_snoc. reflexivity.
Qed.

End StrategyViewFacts.

(** X12: a strategy is its registrations grouped by condition.  After any
    sequence of [AddImplement] calls on a new strategy, there is one
    specialization per condition used, in the order in which the conditions
    first came up, and each holds exactly the implementations registered
    under its condition, in call order. *)
Theorem register_all_groups {FTVMCompute FTVMSchedule : Type}
    (h : gmap nat (@OpSpecializationNode FTVMCompute FTVMSchedule))
    (rs : list (@Registration FTVMCompute FTVMSchedule)) :
  specialization_nodes (register_all rs (make_OpStrategy h))
  = (fun c => mkOpSpecializationNode
                (implement_of <$> filter (fun r => reg_cond r = c) rs) c)
      <$> first_occurrences (reg_cond <$> rs).
Proof.
  rewrite register_all_view.
  - apply (foldl_add_to_nodes rs).
  - intros e He. simpl in He. inversion He.
  - apply NoDup_nil_2.
Qed.

Section StrategySteps.

Context {FTVMCompute FTVMSchedule : Type}.

Implicit Types (st : @Store FTVMCompute FTVMSchedule).
Implicit Types (c : SpecializedCondition).

Lemma NoDup_fmap_eq {A B} (g : A -> B) (l : list A) (x y : A) :
  NoDup (g <$> l) -> x ∈ l -> y ∈ l -> g x = g y -> x = y.
Proof.
  induction l as [|a l IH]; [intros _ Hx; inversion Hx|].
  rewrite fmap_cons, NoDup_cons, !elem_of_cons.
  intros [Hna Hnd] [->|Hx] [->|Hy] Heq; try reflexivity.
  - exfalso. apply Hna. rewrite Heq. apply list_elem_of_fmap_2, Hy.
  - exfalso. apply Hna. rewrite <- Heq. apply list_elem_of_fmap_2, Hx.
  - apply IH; assumption.
Qed.

(** X13: a call adds exactly one implementation and at most one
    specialization.  On a store whose references are valid and whose
    conditions are distinct, the number of implementations held by the
    strategy goes up by one, and the number of specializations stays or goes
    up by one. *)
Theorem AddImplement_counts c (f : FTVMCompute) (s : FTVMSchedule) (p : Z) st :
  valid_refs st -> NoDup (conditions st) ->
  let st' := OpStrategy_AddImplement c f s p st in
  total_implements (specialization_nodes st')
  = S (total_implements (specialization_nodes st)) /\
  length (specialization_nodes st')
  = if decide (c ∈ conditions st) then length (specialization_nodes st)
    else S (length (specialization_nodes st)).
Proof.
  intros Hv Hnd st'. unfold st'. rewrite AddImplement_view by assumption.
  split; [apply add_to_nodes_total|].
  rewrite <- !(length_fmap condition), add_to_nodes_conditions.
  unfold conditions. destruct (decide (c ∈ _)); [reflexivity|].
  rewrite length_app. simpl. lia.
Qed.

Lemma filter_none {A} (P : A -> Prop) `{forall x, Decision (P x)} (l : list A) :
  (forall x, x ∈ l -> ~ P x) -> filter P l = [].
Proof.
  induction l as [|x l IH]; intros Hnot; [reflexivity|].
  rewrite filter_cons_False by (apply Hnot; left).
  apply IH. intros y Hy. apply Hnot. right. exact Hy.
Qed.

(** After a call the nodes with the condition are one node, and the new
    implementation is its last one. *)
Lemma add_to_nodes_unique c
    (n : @OpImplementNode FTVMCompute FTVMSchedule)
    (nodes : list (@OpSpecializationNode FTVMCompute FTVMSchedule)) :
  NoDup (condition <$> nodes) ->
  exists node,
    filter (fun node' => condition node' = c) (add_to_nodes c n nodes) = [node] /\
    condition node = c /\
    last (implements node) = Some n.
Proof.
  induction nodes as [|node nodes IH]; intros Hnd.
  - exists (mkOpSpecializationNode [n] c). split; [|split; reflexivity].
    cbn [add_to_nodes]. rewrite filter_cons_True by reflexivity. reflexivity.
  - rewrite fmap_cons in Hnd. apply NoDup_cons in Hnd as [Hnot Hnd].
    rewrite add_to_nodes_cons. destruct (decide (condition node = c)) as [Hc|Hc].
    + exists (mkOpSpecializationNode (implements node ++ [n]) (condition node)).
      split; [|split; [exact Hc | apply last_snoc]].
      rewrite filter_cons_True by exact Hc. f_equal.
      apply filter_none. intros x Hx Hcx. apply Hnot.
      rewrite Hc, <- Hcx. apply list_elem_of_fmap_2, Hx.
    + destruct (IH Hnd) as (node' & Hfilter & Hcond & Hlast).
      exists node'. rewrite filter_cons_False by exact Hc.
      split; [exact Hfilter|]. split; assumption.
Qed.

Lemma valid_refs_length st :
  valid_refs st ->
  length (specialization_nodes st) = length (specializations (this st)).
Proof.
  unfold valid_refs, specialization_nodes.
  induction (specializations (this st)) as [|e specs IH]; intros Hv; [reflexivity|].
  csimpl. destruct (Hv e ltac:(left)) as [node ->]. csimpl.
  rewrite IH; [reflexivity|]. intros e' He'. apply Hv. right. exact He'.
Qed.

(** X14: what is registered can be read back.  On a store whose references
    are valid and whose conditions are distinct, after a call under
    condition [c] the strategy has exactly one specialization with condition
    [c] (the specializations with that condition are a list of one, and each
    reference of the strategy is one specialization), and the last
    implementation of that specialization is the one just registered, with
    its compute function, schedule function and priority level. *)
Theorem AddImplement_read_back c (f : FTVMCompute) (s : FTVMSchedule) (p : Z) st :
  valid_refs st -> NoDup (conditions st) ->
  let st' := OpStrategy_AddImplement c f s p st in
  length (specialization_nodes st') = length (specializations (this st')) /\
  exists node,
    filter (fun node' => condition node' = c) (specialization_nodes st') = [node] /\
    condition node = c /\
    last (implements node) = Some (mkOpImplementNode f s p).
Proof.
  intros Hv Hnd st'. split.
  - apply valid_refs_length, AddImplement_valid_refs, Hv.
  - unfold st'. rewrite AddImplement_view by assumption.
    apply add_to_nodes_unique, Hnd.
Qed.

(** X15: a call never removes, reorders or rewrites what is there, on any
    store: the references of the strategy before the call are a prefix of
    those after it; every node of the heap keeps its condition and its
    implementations as a prefix of what it holds afterwards; and a node whose
    condition is not the current one is left exactly as it was. *)
Theorem AddImplement_append_only c (f : FTVMCompute) (s : FTVMSchedule) (p : Z) st :
  let st' := OpStrategy_AddImplement c f s p st in
  specializations (this st) `prefix_of` specializations (this st') /\
  (forall e node,
      heap st !! e = Some node ->
      exists node',
        heap st' !! e = Some node' /\
        condition node' = condition node /\
        implements node `prefix_of` implements node') /\
  (forall e node,
      heap st !! e = Some node -> condition node <> c ->
      heap st' !! e = Some node).
Proof.
  intros st'. unfold st'.
  destruct (find_specialization (heap st) (specializations (this st)) c)
    as [e0|] eqn:E.
  - rewrite (AddImplement_found_store c f s p st e0 E). simpl.
    unfold OpSpecialization_AddImplement.
    destruct (find_specialization_Some _ _ _ _ E) as (_ & node0 & He0 & Hc0).
    split; [reflexivity|]. split.
    + intros e node He. rewrite lookup_alter.
      destruct (decide (e0 = e)) as [->|Hne].
      * rewrite He. simpl. eexists. split; [reflexivity|].
        split; [reflexivity|]. apply prefix_app_r. reflexivity.
      * exists node. repeat split; [exact He|reflexivity].
    + intros e node He Hc. rewrite lookup_alter_ne; [exact He|].
      intros ->. rewrite He in He0. congruence.
  - rewrite (AddImplement_new_store c f s p st E). simpl.
    assert (forall e node, heap st !! e = Some node ->
              <[fresh (dom (heap st)) :=
                  mkOpSpecializationNode [mkOpImplementNode f s p] c]> (heap st) !! e
              = Some node) as Hkeep.
    { intros e node He. rewrite lookup_insert_ne; [exact He|].
      intros <-. rewrite fresh_ref in He. discriminate. }
    split; [apply prefix_app_r; reflexivity|]. split.
    + intros e node He. exists node. rewrite (Hkeep e node He).
      repeat split; reflexivity.
    + intros e node He _. apply Hkeep, He.
Qed.

End StrategySteps.

Lemma AddImplement_counts_witness :
  let st := register_all [mkRegistration None "dense" "schedule_dense" 10]
                         (make_OpStrategy ∅) in
  let st' := OpStrategy_AddImplement (Some 3) "dense_pack" "schedule_pack" 15 st in
  valid_refs st /\ NoDup (conditions st) /\
  total_implements (specialization_nodes st') = 2 /\
  length (specialization_nodes st') = 2.
Proof.
  intros st st'.
  assert (valid_refs st /\ NoDup (conditions st)) as [Hv Hnd].
  { apply register_all_invariant; [|apply NoDup_nil_2].
    intros e He. simpl in He. inversion He. }
  split; [exact Hv|]. split; [exact Hnd|].
  exact (AddImplement_counts (Some 3) "dense_pack" "schedule_pack" 15%Z st Hv Hnd).
Defined.

Lemma AddImplement_read_back_witness :
  let st := register_all [mkRegistration None "dense" "schedule_dense" 10;
                          mkRegistration (Some 3) "dense_gpu" "schedule_gpu" 12]
                         (make_OpStrategy ∅) in
  let st' := OpStrategy_AddImplement None "dense_pack" "schedule_pack" 15 st in
  valid_refs st /\ NoDup (conditions st) /\
  length (specialization_nodes st') = length (specializations (this st')) /\
  exists node,
    filter (fun node' => condition node' = None) (specialization_nodes st') = [node] /\
    condition node = None /\
    last (implements node)
    = Some (mkOpImplementNode "dense_pack" "schedule_pack" 15%Z).
Proof.
  intros st st'.
  assert (valid_refs st /\ NoDup (conditions st)) as [Hv Hnd].
  { apply register_all_invariant; [|apply NoDup_nil_2].
    intros e He. simpl in He. inversion He. }
  split; [exact Hv|]. split; [exact Hnd|].
  exact (AddImplement_read_back None "dense_pack" "schedule_pack" 15%Z st Hv Hnd).
Defined.
